(** * SkillSwap demo audio generator: [video/generate_audio.py]

    A shallow embedding of the audio generator and the properties of its
    segmentation, synthesis fallback, script reading and concatenation.

    Python [str] values are lists of characters.  A character is its
    Unicode code point, a number; [len] is the number of code points, as in
    Python.  [bytes] values are lists of [Byte.byte]. *)

From Stdlib Require Import Ascii String List ZArith Lia Bool Arith.
From Stdlib Require Strings.Byte.
Import ListNotations.

Local Open Scope list_scope.

(** ** Strings *)

Definition char := N.

Definition str := list char.

(** A Python string literal (of ASCII characters). *)
Definition lit (s : string) : str :=
  map N_of_ascii (list_ascii_of_string s).

(** [len(s)] *)
Definition len (s : str) : Z := Z.of_nat (length s).

(** [s.startswith(p)] *)
Fixpoint startswith (p s : str) : bool :=
  match p, s with
  | [], _ => true
  | _ :: _, [] => false
  | a :: p', b :: s' => N.eqb a b && startswith p' s'
  end.

(** [p in s] *)
Fixpoint contains (p s : str) : bool :=
  startswith p s ||
  match s with
  | [] => false
  | _ :: s' => contains p s'
  end.

(** [s.find(p)]: the index of the first occurrence, [None] for Python's -1. *)
Fixpoint find (p s : str) : option nat :=
  if startswith p s then Some 0
  else match s with
       | [] => None
       | _ :: s' => option_map S (find p s')
       end.

(** [sep.join(l)] *)
Fixpoint join (sep : str) (l : list str) : str :=
  match l with
  | [] => []
  | x :: rest =>
      match rest with
      | [] => x
      | _ :: _ => x ++ sep ++ join sep rest
      end
  end.

(** [c.isspace()], which is also what [strip] removes: TAB..CR, FS..US,
    SPACE, NEL, NBSP, U+1680, U+2000..U+200A, U+2028, U+2029, U+202F, U+205F
    and U+3000. *)
Definition isspace (c : char) : bool :=
  (((9 <=? c) && (c <=? 13)) || ((28 <=? c) && (c <=? 31))
   || (c =? 32) || (c =? 133) || (c =? 160) || (c =? 5760)
   || ((8192 <=? c) && (c <=? 8202)) || (c =? 8232) || (c =? 8233)
   || (c =? 8239) || (c =? 8287) || (c =? 12288))%N.

Fixpoint lstrip (s : str) : str :=
  match s with
  | [] => []
  | c :: s' => if isspace c then lstrip s' else s
  end.

Definition rstrip (s : str) : str := rev (lstrip (rev s)).

(** [s.strip()] *)
Definition strip (s : str) : str := rstrip (lstrip s).

(** Truth value of a string: [bool(s)]. *)
Definition truthy (s : str) : bool :=
  match s with
  | [] => false
  | _ :: _ => true
  end.

(** ** Regular-expression scanning

    [re.sub], [re.findall] and [re.split] all walk the subject from left to
    right: at the current position the pattern is tried; a match of length
    [n > 0] is consumed and scanning resumes right after it, otherwise the
    character at that position is passed over.  None of the three patterns
    of this program matches the empty string.

    A pattern is given by its matcher at the head of a string: the length
    of the match the backtracking engine finds there, if any. *)

Definition matcher := str -> option nat.

Inductive token : Type :=
| Chr (c : char)        (* a character outside every match *)
| Mat (m : str).         (* the text of one match *)

(** [skip] counts the characters of the current match still to be consumed. *)
Fixpoint finditer (m : matcher) (skip : nat) (s : str) : list token :=
  match s with
  | [] => []
  | c :: s' =>
      match skip with
      | S k => finditer m k s'
      | O =>
          match m s with
          | Some (S n) => Mat (firstn (S n) s) :: finditer m n s'
          | _ => Chr c :: finditer m 0 s'
          end
      end
  end.

(** [re.sub(pattern, '', s)] *)
Definition re_sub_empty (m : matcher) (s : str) : str :=
  flat_map (fun t => match t with Chr c => [c] | Mat _ => [] end)
           (finditer m 0 s).

(** [re.findall(pattern, s)] for a pattern with one group, [group1] giving
    the group's text from the text of the match. *)
Definition re_findall (m : matcher) (group1 : str -> str) (s : str) : list str :=
  flat_map (fun t => match t with Chr _ => [] | Mat x => [group1 x] end)
           (finditer m 0 s).

(** [re.split(pattern, s)] for a pattern that is one capturing group: the
    pieces between matches, with the text of every match in between. *)
Fixpoint split_tokens (ts : list token) : list str :=
  match ts with
  | [] => [[]]
  | Chr c :: ts' =>
      match split_tokens ts' with
      | piece :: rest => (c :: piece) :: rest
      | [] => [[c]]
      end
  | Mat x :: ts' => [] :: x :: split_tokens ts'
  end.

Definition re_split (m : matcher) (s : str) : list str :=
  split_tokens (finditer m 0 s).

(** *** The three patterns of [split_for_polly] *)

Definition LF : char := 10%N.
Definition RBRACKET : char := 93%N.     (* ] *)

Definition SECTION_OPEN : str := lit "[SECTION: ".
Definition SPEAK_OPEN : str := lit "<speak>".
Definition SPEAK_CLOSE : str := lit "</speak>".
Definition PROSODY_CLOSE : str := lit "</prosody>".

(** The longest run matched by the greedy class [[^\]]*]. *)
Fixpoint span_not_rbracket (s : str) : nat :=
  match s with
  | [] => 0
  | c :: s' => if N.eqb c RBRACKET then 0 else S (span_not_rbracket s')
  end.

(** [section_pattern = r'\[SECTION: [^\]]+\]\n?'].  The class excludes the
    bracket that must follow it, so only the longest run can succeed. *)
Definition section_pattern : matcher := fun s =>
  if startswith SECTION_OPEN s then
    let body := skipn (length SECTION_OPEN) s in
    let n := span_not_rbracket body in
    match n, skipn n body with
    | S _, _ :: rest =>
        Some (length SECTION_OPEN + n + 1 + (if startswith [LF] rest then 1 else 0))
    | _, _ => None
    end
  else None.

(** [speak_pattern = r'<speak>(.*?)</speak>'] with [re.DOTALL]: the lazy
    group stops at the first closing tag after the opening one. *)
Definition speak_pattern : matcher := fun s =>
  if startswith SPEAK_OPEN s then
    match find SPEAK_CLOSE (skipn (length SPEAK_OPEN) s) with
    | Some k => Some (length SPEAK_OPEN + k + length SPEAK_CLOSE)
    | None => None
    end
  else None.

Definition speak_group (x : str) : str :=
  firstn (length x - length SPEAK_OPEN - length SPEAK_CLOSE)
         (skipn (length SPEAK_OPEN) x).

(** [r'(</prosody>)'] *)
Definition prosody_pattern : matcher := fun s =>
  if startswith PROSODY_CLOSE s then Some (length PROSODY_CLOSE) else None.

(** ** [split_for_polly] *)

(** [f'<speak>{c}</speak>'] *)
Definition speak (c : str) : str := SPEAK_OPEN ++ c ++ SPEAK_CLOSE.

Definition text_without_markers (text : str) : str :=
  re_sub_empty section_pattern text.

Definition speak_contents (text : str) : list str :=
  re_findall speak_pattern speak_group (text_without_markers text).

Definition combined_content (text : str) : str :=
  join [LF] (speak_contents text).

Definition full_ssml (text : str) : str := speak (combined_content text).

(** One pass through the body of the splitting loop for the block
    [full_block = block + closing_tag]; the state is
    [(segments, current_content)]. *)
Definition split_step (max_chars : Z) (full_block : str)
           (st : list str * str) : list str * str :=
  let '(segments, current_content) := st in
  if negb (truthy (strip full_block)) then st          (* continue *)
  else
    let test_segment := speak (current_content ++ full_block) in
    if truthy current_content && (len test_segment >? max_chars)%Z
    then (segments ++ [speak current_content], full_block)
    else (segments, current_content ++ full_block).

(** [for i in range(0, len(prosody_blocks), 2)]: the list is consumed two
    entries at a time, [closing_tag] being the empty string when the entry at
    [i + 1] does not exist. *)
Fixpoint split_loop (max_chars : Z) (prosody_blocks : list str)
         (st : list str * str) : list str * str :=
  match prosody_blocks with
  | [] => st
  | [block] => split_step max_chars (block ++ []) st
  | block :: closing_tag :: rest =>
      split_loop max_chars rest (split_step max_chars (block ++ closing_tag) st)
  end.

(** [segments] as it stands at the [return] of the splitting path. *)
Definition split_segments (max_chars : Z) (content : str) : list str :=
  let prosody_blocks := re_split prosody_pattern content in
  let '(segments, current_content) := split_loop max_chars prosody_blocks ([], []) in
  if truthy (strip current_content)
  then segments ++ [speak current_content]
  else segments.

Definition split_for_polly (text : str) (max_chars : Z) : list str :=
  if (len (full_ssml text) <=? max_chars)%Z then [full_ssml text]
  else
    match split_segments max_chars (combined_content text) with
    | [] => [full_ssml text]
    | segments => segments
    end.

(** ** Exceptions and results *)

(** The exception classes the program raises or catches, each carrying its
    message.  [IOError] is Python 3's alias of [OSError];
    [FileNotFoundError] is one of its subclasses.  All but [SystemExit] are
    subclasses of [Exception]. *)
Inductive exn : Type :=
| FileNotFoundError (msg : str)
| IOError (msg : str)
| ValueError (msg : str)
| Exception (msg : str)
| SystemExit (code : Z).

(** [str(e)] *)
Definition exn_str (e : exn) : str :=
  match e with
  | FileNotFoundError msg | IOError msg | ValueError msg | Exception msg => msg
  | SystemExit code => []
  end.

(** [isinstance(e, IOError)] *)
Definition is_IOError (e : exn) : bool :=
  match e with
  | FileNotFoundError _ | IOError _ => true
  | _ => false
  end.

(** [isinstance(e, Exception)] *)
Definition is_Exception (e : exn) : bool :=
  match e with
  | SystemExit _ => false
  | _ => true
  end.

Inductive result (A : Type) : Type :=
| Ok (a : A)
| Raise (e : exn).
Arguments Ok {A} a.
Arguments Raise {A} e.

Definition raises {A : Type} (r : result A) : bool :=
  match r with
  | Ok _ => false
  | Raise _ => true
  end.

(** ** [read_script] *)

(** What the file system holds at a path: nothing, a file whose opening or
    reading raises, or a file with its decoded content. *)
Inductive file : Type :=
| Missing
| Failing (e : exn)
| Content (content : str).

Definition filesystem := str -> file.

(** [os.path.exists(path)] *)
Definition exists_ (fs : filesystem) (path : str) : bool :=
  match fs path with
  | Missing => false
  | _ => true
  end.

(** [open(path, 'r', encoding='utf-8')] followed by [f.read()]. *)
Definition open_read (fs : filesystem) (path : str) : result str :=
  match fs path with
  | Missing => Raise (FileNotFoundError path)
  | Failing e => Raise e
  | Content content => Ok content
  end.

Definition read_script (fs : filesystem) (path : str) : result str :=
  if negb (exists_ fs path) then
    Raise (FileNotFoundError (lit "Script file not found: " ++ path))
  else
    match open_read fs path with
    | Ok content =>
        if negb (truthy (strip content))
        then Raise (ValueError (lit "Script file is empty"))
        else Ok content
    | Raise e =>
        (* except IOError as e *)
        if is_IOError e
        then Raise (IOError (lit "Failed to read script file: " ++ exn_str e))
        else Raise e
    end.

(** ** [concatenate_audio] *)

Definition bytes := list Byte.byte.

(** [b''.join(segments)] *)
Definition concatenate_audio (segments : list bytes) : bytes :=
  concat segments.

(** ** [synthesize_speech] *)

Definition VOICE_ID : str := lit "Kendra".

(** The keyword arguments of [polly_client.synthesize_speech]. *)
Record request : Type := {
  Engine : str;
  LanguageCode : str;
  OutputFormat : str;
  Text : str;
  TextType : str;
  VoiceId : str
}.

(** A response is looked at only through its ['AudioStream'] entry: absent,
    or a stream whose [read()] gives the audio or raises. *)
Definition response := option (result bytes).

(** What [with open(output_path, 'wb') as f: f.write(final_audio)] does: the
    bytes are written; or it raises, and the file is left as it was ([None],
    when it could not be opened) or with what was written of it before the
    failure. *)
Inductive write_outcome : Type :=
| Written
| WriteFailed (e : exn) (remains : option bytes).

Section Polly.

(** The service behind the client: its state, and what one
    [synthesize_speech] request returns or raises. *)
Variable service : Type.
Variable polly_synthesize_speech :
  request -> service -> result response * service.

(** Computations that call the service: the state is the service together
    with the log of the requests made so far, oldest first. *)
Definition M (A : Type) : Type :=
  service * list request -> result A * (service * list request).

Definition ret {A : Type} (a : A) : M A := fun st => (Ok a, st).

Definition raise {A : Type} (e : exn) : M A := fun st => (Raise e, st).

Definition bind {A B : Type} (c : M A) (k : A -> M B) : M B :=
  fun st =>
    match c st with
    | (Ok a, st') => k a st'
    | (Raise e, st') => (Raise e, st')
    end.

(** [try: c / except Exception as e: h e] *)
Definition try_except {A : Type} (c : M A) (h : exn -> M A) : M A :=
  fun st =>
    match c st with
    | (Ok a, st') => (Ok a, st')
    | (Raise e, st') => if is_Exception e then h e st' else (Raise e, st')
    end.

Definition client_synthesize_speech (r : request) : M response :=
  fun '(sv, log) =>
    let '(out, sv') := polly_synthesize_speech r sv in
    (out, (sv', log ++ [r])).

Definition synthesis_request (engine text text_type : str) : request :=
  {| Engine := engine;
     LanguageCode := lit "en-US";
     OutputFormat := lit "mp3";
     Text := text;
     TextType := text_type;
     VoiceId := VOICE_ID |}.

(** The test on [error_msg] that sends the request to the standard engine. *)
Definition unsupported_by_neural (error_msg : str) : bool :=
  contains (lit "Unsupported") error_msg
  || contains (lit "Neural") error_msg
  || contains (lit "does not support") error_msg.

Definition synthesize_speech (text : str) (is_ssml : bool) : M bytes :=
  try_except
    (let text_type := if is_ssml then lit "ssml" else lit "text" in
     bind
       (try_except
          (client_synthesize_speech
             (synthesis_request (lit "neural") text text_type))
          (fun neural_error =>
             let error_msg := exn_str neural_error in
             if unsupported_by_neural error_msg
             then client_synthesize_speech
                    (synthesis_request (lit "standard") text text_type)
             else raise neural_error))
       (fun response =>
          match response with
          | Some audio_stream =>
              match audio_stream with           (* .read() *)
              | Ok audio_bytes => ret audio_bytes
              | Raise e => raise e
              end
          | None => raise (Exception (lit "No audio stream in Polly response"))
          end))
    (fun e => raise (Exception (lit "Polly synthesis failed: " ++ exn_str e))).

(** ** [main]

    Console output is left out.  [boto3_client] is what
    [boto3.client('polly')] returns or raises, [write_output] what opening
    the output file and writing the bytes to it does. *)

Variable script_path : str.
Variable boto3_client : result service.
Variable write_output : bytes -> write_outcome.

(** Step 2 of [main]. *)
Definition detect_ssml (script_content : str) : bool :=
  contains SPEAK_OPEN script_content.

(** Step 5 of [main]: a failed segment ends the run with [sys.exit(1)]. *)
Fixpoint synthesize_segments (segments : list str) (is_ssml : bool)
         (audio_segments : list bytes) : M (list bytes) :=
  match segments with
  | [] => ret audio_segments
  | segment :: rest =>
      bind
        (try_except (synthesize_speech segment is_ssml)
                    (fun _ => raise (SystemExit 1)))
        (fun audio_bytes =>
           synthesize_segments rest is_ssml (audio_segments ++ [audio_bytes]))
  end.

(** What a run leaves behind: the exit status of the process, the requests
    sent to the service, and the bytes it left in the output file, [None]
    when it did not come to open the file. *)
Record run : Type := {
  exit_status : Z;
  requests : list request;
  written : option bytes
}.

(** The status the process ends with when [e] leaves a [try] of [main]:
    every handler calls [sys.exit(1)]; a [SystemExit] passes them all. *)
Definition exit_of (e : exn) : Z :=
  match e with
  | SystemExit code => code
  | _ => 1%Z
  end.

Definition main (fs : filesystem) : run :=
  match read_script fs script_path with
  | Raise e => {| exit_status := exit_of e; requests := []; written := None |}
  | Ok script_content =>
      let is_ssml := detect_ssml script_content in
      let segments := split_for_polly script_content 3000 in
      match boto3_client with
      | Raise e =>
          {| exit_status := exit_of e; requests := []; written := None |}
      | Ok polly_client =>
          match synthesize_segments segments is_ssml [] (polly_client, []) with
          | (Raise e, (_, log)) =>
              {| exit_status := exit_of e; requests := log; written := None |}
          | (Ok audio_segments, (_, log)) =>
              let final_audio := concatenate_audio audio_segments in
              match write_output final_audio with
              | Written =>
                  {| exit_status := 0; requests := log;
                     written := Some final_audio |}
              | WriteFailed e remains =>
                  {| exit_status := exit_of e; requests := log;
                     written := remains |}
              end
          end
      end
  end.

End Polly.

Arguments synthesize_speech {service} polly_synthesize_speech text is_ssml _.
Arguments synthesize_segments {service} polly_synthesize_speech
  segments is_ssml audio_segments _.
Arguments main {service} polly_synthesize_speech script_path boto3_client
  write_output fs.

(** ** Predicates of the specification *)

(** [re.search(pattern, s) is not None]: some substring of [s] matches. *)
Fixpoint re_search (m : matcher) (s : str) : bool :=
  match m s with
  | Some _ => true
  | None =>
      match s with
      | [] => false
      | _ :: s' => re_search m s'
      end
  end.

(** A string with nothing but white space: [not s.strip()]. *)
Definition blank (s : str) : bool := negb (truthy (strip s)).

(** The content of a segment, its [<speak>] and [</speak>] wrapper removed. *)
Definition unwrap (segment : str) : str :=
  firstn (length segment - length SPEAK_OPEN - length SPEAK_CLOSE)
         (skipn (length SPEAK_OPEN) segment).

(** *** Well-formed markup

    A reading of "independently valid standalone markup (single root, no
    dangling tags)": tags are the texts between [<] and [>]; a tag whose text
    starts with [/] closes the innermost open element and must carry its
    name, one that ends with [/] is an empty element, any other opens an
    element; at the end every element is closed, exactly one element was
    opened at top level, and only white space lies outside it. *)

Fixpoint str_eqb (a b : str) : bool :=
  match a, b with
  | [], [] => true
  | x :: a', y :: b' => N.eqb x y && str_eqb a' b'
  | _, _ => false
  end.

Definition LT : char := 60%N.      (* < *)
Definition GT : char := 62%N.      (* > *)
Definition SLASH : char := 47%N.   (* / *)

(** The element name of a tag: its text up to white space or a slash. *)
Fixpoint tag_name (body : str) : str :=
  match body with
  | [] => []
  | c :: r => if isspace c || N.eqb c SLASH then [] else c :: tag_name r
  end.

Record markup_state : Type := {
  opened : list str;      (* open elements, innermost first *)
  in_tag : option str;    (* inside a tag: its text so far, reversed *)
  roots : nat;            (* top-level elements closed so far *)
  sound : bool            (* no error met *)
}.

Definition markup_init : markup_state :=
  {| opened := []; in_tag := None; roots := 0; sound := true |}.

Definition markup_fail (st : markup_state) : markup_state :=
  {| opened := opened st; in_tag := None; roots := roots st; sound := false |}.

Definition close_root (below : list str) (n : nat) : nat :=
  match below with
  | [] => S n
  | _ :: _ => n
  end.

(** The tag whose text is [body] has just ended. *)
Definition end_of_tag (body : str) (st : markup_state) : markup_state :=
  match body with
  | c :: name =>
      if N.eqb c SLASH then
        match opened st with
        | top :: below =>
            if str_eqb (tag_name name) top
            then {| opened := below; in_tag := None;
                    roots := close_root below (roots st); sound := sound st |}
            else markup_fail st
        | [] => markup_fail st
        end
      else if N.eqb (last body LT) SLASH then
        {| opened := opened st; in_tag := None;
           roots := close_root (opened st) (roots st); sound := sound st |}
      else
        {| opened := tag_name body :: opened st; in_tag := None;
           roots := roots st; sound := sound st |}
  | [] => markup_fail st
  end.

Definition markup_step (st : markup_state) (c : char) : markup_state :=
  match in_tag st with
  | Some acc =>
      if N.eqb c GT then end_of_tag (rev acc) st
      else if N.eqb c LT then markup_fail st
      else {| opened := opened st; in_tag := Some (c :: acc);
              roots := roots st; sound := sound st |}
  | None =>
      if N.eqb c LT
      then {| opened := opened st; in_tag := Some [];
              roots := roots st; sound := sound st |}
      else
        match opened st with
        | [] => if isspace c then st else markup_fail st
        | _ :: _ => st
        end
  end.

Definition well_formed (s : str) : bool :=
  let st := fold_left markup_step s markup_init in
  sound st
  && match in_tag st with None => true | Some _ => false end
  && match opened st with [] => true | _ :: _ => false end
  && (roots st =? 1).

(** Well-formed markup whose single root is a [<speak>] element. *)
Definition speak_document (s : str) : bool :=
  well_formed s && startswith SPEAK_OPEN s.

(** ** Auxiliary definitions of the properties *)

(** The blocks the splitting loop looks at: each entry of [prosody_blocks]
    at an even index with the entry that follows it. *)
Fixpoint full_blocks (prosody_blocks : list str) : list str :=
  match prosody_blocks with
  | [] => []
  | [block] => [block ++ []]
  | block :: closing_tag :: rest => (block ++ closing_tag) :: full_blocks rest
  end.

(** A file system whose every file is there and refuses to be opened. *)
Definition locked_file : filesystem :=
  fun _ => Failing (IOError (lit "Permission denied")).

(** What the caller of [synthesize_speech] sees of a failed request. *)
Definition synthesis_failure (e : exn) : exn :=
  if is_Exception e
  then Exception (lit "Polly synthesis failed: " ++ exn_str e)
  else e.

(** The neural request failed with an error that sends the text to the
    standard engine. *)
Definition rejected_as_unsupported (out : result response) : bool :=
  match out with
  | Ok _ => false
  | Raise e => is_Exception e && unsupported_by_neural (exn_str e)
  end.

(** A service that answers every request with one byte of audio. *)
Definition one_byte_service (r : request) (sv : unit) : result response * unit :=
  (Ok (Some (Ok [Byte.x00])), sv).

(** The part of the subject a token stands for. *)
Definition token_text (t : token) : str :=
  match t with
  | Chr c => [c]
  | Mat x => x
  end.

(** A content [c] fits when its segment respects the limit, or else it is
    one single block of those seen. *)
Definition fits (max_chars : Z) (seen : list str) (c : str) : Prop :=
  (len (speak c) <= max_chars)%Z \/ In c seen.

(** The blocks the loop does not pass over. *)
Definition kept (bs : list str) : list str :=
  filter (fun b => negb (blank b)) bs.

(** The invariant of the loop after the full blocks [seen]: the segments are
    wrapped contents, which with the running buffer make up the blocks kept
    so far; the buffer and the contents are never blank, except the empty
    buffer; each fits. *)
Definition loop_inv (max_chars : Z) (seen : list str)
           (st : list str * str) : Prop :=
  exists cs,
    fst st = map speak cs
    /\ concat cs ++ snd st = concat (kept seen)
    /\ (snd st = [] \/ blank (snd st) = false)
    /\ Forall (fun c => blank c = false) cs
    /\ Forall (fits max_chars seen) cs
    /\ (snd st = [] \/ fits max_chars seen (snd st)).

(** A well-formed script whose split leaves dangling tags and loses the
    final newline. *)
Definition nested_script : str :=
  lit "<speak><p><prosody>a</prosody><prosody>b</prosody></p><prosody>c</prosody>"
  ++ [LF] ++ lit "</speak>".

(** What follows [[SECTION: ] in a match of the marker pattern: a first
    character that is not the closing bracket, and a closing bracket
    later. *)
Definition marker_body (body : str) : Prop :=
  exists x r, body = x :: r /\ x <> RBRACKET /\ In RBRACKET r.

(** Some substring of [s] matches the marker pattern. *)
Definition has_marker (s : str) : Prop :=
  exists pre body, s = pre ++ SECTION_OPEN ++ body /\ marker_body body.

(** A script with a marker inside what reads as a marker once it is gone. *)
Definition nested_marker_script : str :=
  lit "<speak>[SECTION[SECTION: x]: y]</speak>".

(** ** Auxiliary definitions of the further properties *)

(** What [synthesize_speech] makes of the response it got. *)
Definition audio_of_response (resp : response) : result bytes :=
  match resp with
  | Some (Ok audio_bytes) => Ok audio_bytes
  | Some (Raise e) => Raise (synthesis_failure e)
  | None =>
      Raise (Exception
               (lit "Polly synthesis failed: No audio stream in Polly response"))
  end.

(** A service whose responses carry no audio stream. *)
Definition silent_service (r : request) (sv : unit) : result response * unit :=
  (Ok None, sv).

(** The fixed fields of every request of the program. *)
Definition program_request (r : request) : Prop :=
  (Engine r = lit "neural" \/ Engine r = lit "standard")
  /\ LanguageCode r = lit "en-US"
  /\ OutputFormat r = lit "mp3"
  /\ VoiceId r = lit "Kendra".

(** [texts] follows [segments]: it runs through a prefix of the segments in
    their order, with each segment once or twice. *)
Inductive in_order : list str -> list str -> Prop :=
| in_order_stop (segments : list str) : in_order segments []
| in_order_once (segment : str) (segments texts : list str) :
    in_order segments texts ->
    in_order (segment :: segments) (segment :: texts)
| in_order_twice (segment : str) (segments texts : list str) :
    in_order segments texts ->
    in_order (segment :: segments) (segment :: segment :: texts).

(** The segment of content [c] was closed because the block that opens
    the next content [d] would not fit after it. *)
Definition overflows (max_chars : Z) (blocks : list str) (c d : str) : Prop :=
  exists block rest,
    d = block ++ rest
    /\ In block blocks
    /\ blank block = false
    /\ (len (speak (c ++ block)) > max_chars)%Z.

(** Every content but the last is followed by one it could not take in. *)
Fixpoint greedy (max_chars : Z) (blocks : list str) (cs : list str) : Prop :=
  match cs with
  | [] => True
  | c :: rest =>
      match rest with
      | [] => True
      | d :: _ => overflows max_chars blocks c d
      end
      /\ greedy max_chars blocks rest
  end.

Definition greedy_inv (max_chars : Z) (seen : list str)
           (st : list str * str) : Prop :=
  exists cs, fst st = map speak cs /\ greedy max_chars seen (cs ++ [snd st]).

Definition LBRACKET : char := 91%N.     (* [ *)

(** The parts of a script laid out as its author means it: marker lines,
    [<speak>] blocks, and text outside of both. *)
Inductive script_item : Type :=
| Marker (name : str)
| Outside (t : str)
| Block (content : str).

Definition render_item (i : script_item) : str :=
  match i with
  | Marker name => SECTION_OPEN ++ name ++ [RBRACKET; LF]
  | Outside t => t
  | Block content => speak content
  end.

Definition render (items : list script_item) : str :=
  flat_map render_item items.

(** A marker has a name, without a closing bracket; the text outside has no
    opening bracket and no [<]; the content of a block has no opening
    bracket and no [</speak>]. *)
Definition item_ok (i : script_item) : bool :=
  match i with
  | Marker name => truthy name && negb (existsb (N.eqb RBRACKET) name)
  | Outside t =>
      negb (existsb (N.eqb LBRACKET) t) && negb (existsb (N.eqb LT) t)
  | Block content =>
      negb (existsb (N.eqb LBRACKET) content)
      && negb (contains SPEAK_CLOSE content)
  end.

Definition blocks_of (items : list script_item) : list str :=
  flat_map (fun i => match i with Block content => [content] | _ => [] end)
           items.

(** The script once its marker lines are gone. *)
Definition render_visible (items : list script_item) : str :=
  flat_map (fun i => match i with Marker _ => [] | _ => render_item i end)
           items.


(** A segment of [n] short prosody elements, and a script of 200 of them,
    too long for one segment of 3000 characters. *)
Definition long_segment (n : nat) : str :=
  speak (concat (repeat (lit "<prosody>hello</prosody>") n)).

Definition long_script : str := long_segment 200.

(** The state of the markup reader inside a [<speak>] element that has just
    been opened at top level. *)
Definition speak_inside : markup_state :=
  {| opened := [lit "speak"]; in_tag := None; roots := 0; sound := true |}.

(** Markup that can stand inside a [<speak>] element: read from inside the
    element, it ends there again, every element it opens closed and none
    closed that it did not open. *)
Definition balanced (c : str) : Prop :=
  fold_left markup_step c speak_inside = speak_inside.

(** The segments are the groups of blocks already closed; the running
    buffer is the group being filled. *)
Definition group_inv (seen : list str) (st : list str * str) : Prop :=
  exists groups cur_group,
    fst st = map (fun group => speak (concat group)) groups
    /\ snd st = concat cur_group
    /\ concat groups ++ cur_group = kept seen
    /\ Forall (fun group => blank (concat group) = false) groups.

(** A script laid out as its author means it: text and marker lines,
    outside the [<speak>] blocks and inside them. *)
Inductive part : Type :=
| Words (t : str)
| Mark (name : str).

Inductive layout_item : Type :=
| Between (parts : list part)       (* outside the blocks *)
| Spoken (parts : list part).       (* one <speak> block *)

Definition render_part (p : part) : str :=
  match p with
  | Words t => t
  | Mark name => lit "[SECTION: " ++ name ++ lit "]" ++ [10%N]  (* "\n" *)
  end.

Definition render_parts (ps : list part) : str := flat_map render_part ps.

Definition render_layout (items : list layout_item) : str :=
  flat_map (fun i => match i with
                     | Between ps => render_parts ps
                     | Spoken ps =>
                         lit "<speak>" ++ render_parts ps ++ lit "</speak>"
                     end)
           items.

(** The text of some parts, their marker lines left out. *)
Definition words (ps : list part) : str :=
  flat_map (fun p => match p with Words t => t | Mark _ => [] end) ps.

(** The texts of the blocks, in the order of the script. *)
Definition spoken (items : list layout_item) : list str :=
  flat_map (fun i => match i with Spoken ps => [words ps] | Between _ => [] end)
           items.

(** A marker has a name, without a closing bracket; text has no opening
    bracket, and outside the blocks no [<]. *)
Definition part_ok (outside : bool) (p : part) : bool :=
  match p with
  | Words t =>
      negb (existsb (N.eqb LBRACKET) t)
      && (negb outside || negb (existsb (N.eqb LT) t))
  | Mark name => negb (length name =? 0) && negb (contains (lit "]") name)
  end.

(** Besides, the text of a block holds no [</speak>]. *)
Definition layout_ok (i : layout_item) : bool :=
  match i with
  | Between ps => forallb (part_ok true) ps
  | Spoken ps =>
      forallb (part_ok false) ps && negb (contains (lit "</speak>") (words ps))
  end.

(** The script of a layout once its marker lines are gone. *)
Definition visible (items : list layout_item) : str :=
  flat_map (fun i => match i with
                     | Between ps => words ps
                     | Spoken ps => speak (words ps)
                     end)
           items.

(** Texts one after the other, a newline before each but the first. *)
Definition newline_separated (l : list str) : str :=
  match l with
  | [] => []
  | x :: rest => x ++ flat_map (fun y => 10%N :: y) rest   (* "\n" + y *)
  end.

(** A [<speak>] block inside another. *)
Definition nested_speak_script : str :=
  lit "<speak><speak>a</speak>b</speak>".

(** * Properties *)

(** ** [concatenate_audio] *)

Lemma length_concat_sum (l : list bytes) :
  length (concat l) = list_sum (map (@length Byte.byte) l).
Proof.
  induction l as [|c l IH]; simpl; [reflexivity|].
  now rewrite length_app, IH.
Qed.

Lemma chunk_at_offset (before : list bytes) (chunk : bytes) (after : list bytes) :
  firstn (length chunk)
         (skipn (length (concat before)) (concat (before ++ chunk :: after)))
  = chunk.
Proof.
  rewrite concat_app, skipn_app, skipn_all, Nat.sub_diag; simpl.
  rewrite firstn_app, firstn_all, Nat.sub_diag; simpl.
  apply app_nil_r.
Qed.

(** C9: for every ordered list of byte chunks, [concatenate_audio] returns
    their concatenation in input order: the result of a list is the first
    chunk followed by the result of the others; its length is the sum of the
    chunks' lengths; and the chunk at index [i] lies in the result at the
    offset that is the sum of the lengths of the chunks before it. *)
Theorem concatenate_audio_in_order (segments : list bytes) :
  concatenate_audio [] = []
  /\ (forall chunk rest,
         concatenate_audio (chunk :: rest) = chunk ++ concatenate_audio rest)
  /\ length (concatenate_audio segments)
     = list_sum (map (@length Byte.byte) segments)
  /\ (forall i chunk,
         nth_error segments i = Some chunk ->
         firstn (length chunk)
                (skipn (list_sum (map (@length Byte.byte) (firstn i segments)))
                       (concatenate_audio segments))
         = chunk).
Proof.
  unfold concatenate_audio.
  repeat split; try reflexivity.
  - apply length_concat_sum.
  - intros i chunk Hi.
    destruct (nth_error_split _ _ Hi) as (before & after & -> & <-).
    rewrite firstn_app, firstn_all, Nat.sub_diag; simpl.
    rewrite app_nil_r, <- length_concat_sum.
    apply chunk_at_offset.
Qed.

(** ** [read_script] *)

(** C8, as stated, fails: a script file that is there but cannot be read
    makes [read_script] raise, although the file is neither absent nor
    blank. *)
Lemma read_script_unreadable_raises :
  read_script locked_file (lit "demo_script.txt")
  = Raise (IOError (lit "Failed to read script file: Permission denied"))
  /\ raises (read_script locked_file (lit "demo_script.txt")) = true
  /\ locked_file (lit "demo_script.txt") <> Missing
  /\ (forall content, locked_file (lit "demo_script.txt") <> Content content).
Proof.
  repeat split; discriminate.
Qed.

(** C8, amended: [read_script] raises an error if and only if the script
    file is absent ([FileNotFoundError]), opening or reading it raises, or
    its content is blank ([ValueError]); an [IOError] met while reading is
    raised again as an [IOError]; otherwise the content is returned
    unchanged. *)
Theorem read_script_raises_iff (fs : filesystem) (path : str) :
  (raises (read_script fs path) = true <->
   fs path = Missing
   \/ (exists e, fs path = Failing e)
   \/ (exists content, fs path = Content content /\ blank content = true))
  /\ (fs path = Missing ->
      exists msg, read_script fs path = Raise (FileNotFoundError msg))
  /\ (forall e, fs path = Failing e -> is_IOError e = true ->
      exists msg, read_script fs path = Raise (IOError msg))
  /\ (forall content, fs path = Content content -> blank content = true ->
      exists msg, read_script fs path = Raise (ValueError msg))
  /\ (forall content, fs path = Content content -> blank content = false ->
      read_script fs path = Ok content).
Proof.
  unfold read_script, open_read, exists_, blank.
  destruct (fs path) as [|e|content] eqn:E; simpl.
  - repeat split; try discriminate; eauto.
  - repeat split; try discriminate.
    + intros _. right; left; eauto.
    + destruct (is_IOError e); reflexivity.
    + intros e' [= <-] ->. eauto.
  - destruct (truthy (strip content)) eqn:T; cbn [negb raises]; repeat split;
      intros;
      repeat match goal with
             | H : _ \/ _ |- _ => destruct H
             | H : exists _, _ |- _ => destruct H
             | H : _ /\ _ |- _ => destruct H
             | H : Content _ = Content _ |- _ => injection H as <-
             end;
      try rewrite T in *; cbn [negb] in *; try discriminate; eauto.
    right; right. exists content. now rewrite T.
Qed.

(** ** [synthesize_speech] and [main] *)

Section SynthesisProperties.

Variable service : Type.
Variable polly : request -> service -> result response * service.

(** The requests of one call: the neural one, then the standard one when
    the neural one was rejected as unsupported. *)
Lemma synthesize_speech_log
      (text : str) (is_ssml : bool) (sv : service) (log : list request) :
  let text_type := if is_ssml then lit "ssml" else lit "text" in
  let neural := synthesis_request (lit "neural") text text_type in
  let standard := synthesis_request (lit "standard") text text_type in
  snd (snd (synthesize_speech polly text is_ssml (sv, log)))
  = log ++ neural
        :: (if rejected_as_unsupported (fst (polly neural sv))
            then [standard] else []).
Proof.
  cbv zeta.
  unfold synthesize_speech, try_except, bind, client_synthesize_speech,
    raise, ret, rejected_as_unsupported.
  set (tt := if is_ssml then lit "ssml" else lit "text").
  destruct (polly (synthesis_request (lit "neural") text tt) sv)
    as [[resp | e] sv1]; cbn [fst snd].
  - destruct resp as [[a | e] |]; cbn [is_Exception snd];
      try reflexivity; now destruct (is_Exception e).
  - destruct (is_Exception e) eqn:Ee; cbn [andb]; [|now rewrite Ee].
    destruct (unsupported_by_neural (exn_str e)); [|now rewrite Ee].
    destruct (polly (synthesis_request (lit "standard") text tt) sv1)
      as [[resp | e2] sv2].
    + destruct resp as [[a | e3] |]; cbn [is_Exception snd];
        try (now rewrite <- app_assoc);
        destruct (is_Exception e3); now rewrite <- app_assoc.
    + destruct (is_Exception e2); cbn [is_Exception snd];
        now rewrite <- app_assoc.
Qed.

Ltac fallback_case :=
  repeat match goal with H : is_Exception _ = _ |- _ => rewrite H end;
  cbn [is_Exception andb fst snd];
  try rewrite <- app_assoc; cbn [app];
  (split; [reflexivity|]);
  rewrite length_app; cbn [length];
  repeat split; intros; try discriminate; try lia;
  repeat match goal with H : Raise _ = Raise _ |- _ => injection H as <- end;
  repeat match goal with H : is_Exception _ = _ |- _ => rewrite H end;
  try reflexivity.

(** C7: [synthesize_speech] first sends the request to the ['neural']
    engine; it sends one more request, to the ['standard'] engine, exactly
    when the neural request failed with an error whose message marks the
    input as unsupported; any other failure of the neural request reaches the
    caller with no further request, and so does a failure of the standard
    request. *)
Theorem synthesize_speech_engine_fallback
        (text : str) (is_ssml : bool) (sv : service) (log : list request) :
  let text_type := if is_ssml then lit "ssml" else lit "text" in
  let neural := synthesis_request (lit "neural") text text_type in
  let standard := synthesis_request (lit "standard") text text_type in
  let first := polly neural sv in
  let second := polly standard (snd first) in
  let retried := rejected_as_unsupported (fst first) in
  let '(res, (sv', log')) := synthesize_speech polly text is_ssml (sv, log) in
  log' = log ++ neural :: (if retried then [standard] else [])
  /\ (length log' = 2 + length log <-> retried = true)
  /\ (forall e, fst first = Raise e -> retried = false ->
      res = Raise (synthesis_failure e) /\ sv' = snd first
      /\ log' = log ++ [neural])
  /\ (forall e, retried = true -> fst second = Raise e ->
      res = Raise (synthesis_failure e) /\ sv' = snd second
      /\ log' = log ++ [neural; standard]).
Proof.
  cbv zeta.
  unfold synthesize_speech, try_except, bind, client_synthesize_speech,
    raise, ret, rejected_as_unsupported, synthesis_failure.
  set (tt := if is_ssml then lit "ssml" else lit "text").
  destruct (polly (synthesis_request (lit "neural") text tt) sv)
    as [[resp | e] sv1] eqn:E1; cbn [fst snd].
  - destruct resp as [[audio | e] |];
      try destruct (is_Exception e) eqn:Ee0; fallback_case.
  - destruct (is_Exception e) eqn:Ee; cbn [andb]; [|fallback_case].
    destruct (unsupported_by_neural (exn_str e)) eqn:Eu; [|fallback_case].
    destruct (polly (synthesis_request (lit "standard") text tt) sv1)
      as [[resp | e2] sv2] eqn:E2.
    + destruct resp as [[audio | e3] |];
        try destruct (is_Exception e3) eqn:Ee3; fallback_case.
    + destruct (is_Exception e2) eqn:Ee2; fallback_case.
Qed.

(** Every request [synthesize_speech] makes carries the payload type chosen
    from [is_ssml]. *)
Lemma synthesize_speech_text_type
      (text : str) (is_ssml : bool) (st : service * list request) :
  let text_type := if is_ssml then lit "ssml" else lit "text" in
  Forall (fun r => TextType r = text_type) (snd st) ->
  Forall (fun r => TextType r = text_type)
         (snd (snd (synthesize_speech polly text is_ssml st))).
Proof.
  cbv zeta. destruct st as [sv log]. cbn [snd]. intros Hlog.
  rewrite synthesize_speech_log.
  apply Forall_app. split; [exact Hlog|].
  constructor; [reflexivity|].
  destruct (rejected_as_unsupported _); repeat constructor.
Qed.

Lemma synthesize_segments_text_type (is_ssml : bool) (segments : list str) :
  forall (audio : list bytes) (st : service * list request),
    let text_type := if is_ssml then lit "ssml" else lit "text" in
    Forall (fun r => TextType r = text_type) (snd st) ->
    Forall (fun r => TextType r = text_type)
           (snd (snd (synthesize_segments polly segments is_ssml audio st))).
Proof.
  cbv zeta.
  induction segments as [|segment rest IH]; intros audio st Hst.
  - exact Hst.
  - cbn [synthesize_segments]. unfold bind, try_except.
    pose proof (synthesize_speech_text_type segment is_ssml st Hst) as H.
    cbv zeta in H.
    destruct (synthesize_speech polly segment is_ssml st) as [[a | e] st'].
    + apply IH. exact H.
    + destruct (is_Exception e); exact H.
Qed.

(** C10: when the script holds no ['<speak>'], the SSML detection of [main]
    is false and every request the run sends to the service carries the
    payload type ['text']. *)
Theorem plain_script_synthesized_as_text
        (script_path : str) (boto3_client : result service)
        (write_output : bytes -> write_outcome)
        (fs : filesystem) (script : str) :
  fs script_path = Content script ->
  contains SPEAK_OPEN script = false ->
  detect_ssml script = false
  /\ Forall (fun r => TextType r = lit "text")
            (requests (main polly script_path boto3_client write_output fs)).
Proof.
  intros Hfs Hplain. split; [exact Hplain|].
  unfold main, read_script, open_read, exists_. rewrite Hfs. cbn [negb].
  destruct (negb (truthy (strip script))); [constructor|].
  destruct boto3_client as [polly_client | e]; [|constructor].
  unfold detect_ssml. rewrite Hplain.
  pose proof (synthesize_segments_text_type false
                (split_for_polly script 3000) [] (polly_client, [])) as H.
  cbv zeta in H. cbn [snd] in H. specialize (H (Forall_nil _)).
  destruct (synthesize_segments polly (split_for_polly script 3000) false []
              (polly_client, [])) as [[audio | e] [sv log]]; cbn [snd] in H.
  - destruct (write_output (concatenate_audio audio)); exact H.
  - exact H.
Qed.

End SynthesisProperties.

Lemma plain_script_witness :
  detect_ssml (lit "hello") = false
  /\ Forall (fun r => TextType r = lit "text")
            (requests (main one_byte_service (lit "demo_script.txt") (Ok tt)
                            (fun _ => Written)
                            (fun _ => Content (lit "hello")))).
Proof.
  apply (plain_script_synthesized_as_text unit one_byte_service
           (lit "demo_script.txt") (Ok tt) (fun _ => Written)
           (fun _ => Content (lit "hello")) (lit "hello")); reflexivity.
Defined.

(** The run of the witness does send a request: the whole plain script is
    replaced by an empty [<speak>] element, sent as plain text. *)
Example plain_script_run :
  requests (main one_byte_service (lit "demo_script.txt") (Ok tt)
                 (fun _ => Written) (fun _ => Content (lit "hello")))
  = [synthesis_request (lit "neural") (lit "<speak></speak>") (lit "text")].
Proof. vm_compute. reflexivity. Qed.

(** ** Strings *)

Lemma startswith_app (p r : str) : startswith p (p ++ r) = true.
Proof.
  induction p as [|a p IH]; simpl; [reflexivity|].
  now rewrite N.eqb_refl, IH.
Qed.

Lemma startswith_inv (p s : str) :
  startswith p s = true -> exists r, s = p ++ r.
Proof.
  revert s. induction p as [|a p IH]; intros s H; simpl in *.
  - now exists s.
  - destruct s as [|b s]; [discriminate|].
    apply andb_true_iff in H as [Hab Hps].
    apply N.eqb_eq in Hab as <-.
    destruct (IH _ Hps) as [r ->]. now exists r.
Qed.

Lemma contains_false_suffix (p a b : str) :
  contains p (a ++ b) = false -> contains p b = false.
Proof.
  induction a as [|c a IH]; simpl; [auto|].
  intros H. apply orb_false_iff in H as [_ H]. auto.
Qed.

Lemma contains_false_head (p s : str) :
  contains p s = false -> startswith p s = false.
Proof.
  destruct s; simpl; intros H; apply orb_false_iff in H; tauto.
Qed.

Lemma find_Some (p s : str) (k : nat) :
  find p s = Some k -> exists r, s = firstn k s ++ p ++ r /\ k <= length s.
Proof.
  revert k. induction s as [|c s IH]; intros k; simpl.
  - destruct (startswith p []) eqn:E; [|discriminate].
    intros [= <-]. destruct (startswith_inv _ _ E) as [r Hr].
    exists r. split; [exact Hr | lia].
  - destruct (startswith p (c :: s)) eqn:E.
    + intros [= <-]. destruct (startswith_inv _ _ E) as [r Hr].
      exists r. split; [exact Hr | lia].
    + destruct (find p s) as [j|]; [|discriminate].
      intros [= <-]. destruct (IH j eq_refl) as (r & Hr & Hj).
      exists r. simpl. split; [now rewrite <- Hr | lia].
Qed.

(** White space *)

Lemma lstrip_nil_iff (s : str) : lstrip s = [] <-> forallb isspace s = true.
Proof.
  induction s as [|c s IH]; simpl; [tauto|].
  destruct (isspace c); simpl; [exact IH|].
  split; discriminate.
Qed.

Lemma lstrip_head (s : str) :
  lstrip s = [] \/ exists c r, lstrip s = c :: r /\ isspace c = false.
Proof.
  induction s as [|c s IH]; simpl; [now left|].
  destruct (isspace c) eqn:E; [exact IH|].
  right. now exists c, s.
Qed.

Lemma forallb_rev {A : Type} (f : A -> bool) (l : list A) :
  forallb f (rev l) = forallb f l.
Proof.
  induction l as [|a l IH]; simpl; [reflexivity|].
  rewrite forallb_app, IH. simpl. rewrite andb_true_r. apply andb_comm.
Qed.

Lemma blank_forallb (s : str) : blank s = forallb isspace s.
Proof.
  unfold blank, strip, rstrip.
  destruct (lstrip_head s) as [E | (c & r & E & Hc)].
  - rewrite E. simpl. symmetry. now apply lstrip_nil_iff.
  - assert (Hs : forallb isspace s = false).
    { destruct (forallb isspace s) eqn:F; [|reflexivity].
      apply lstrip_nil_iff in F. congruence. }
    rewrite Hs, E.
    destruct (lstrip (rev (c :: r))) as [|d t] eqn:L.
    + apply lstrip_nil_iff in L. rewrite forallb_rev in L. simpl in L.
      rewrite Hc in L. discriminate.
    + destruct (rev (d :: t)) eqn:R; [|reflexivity].
      apply (f_equal (@rev char)) in R. rewrite rev_involutive in R.
      discriminate.
Qed.

Lemma blank_app (a b : str) : blank (a ++ b) = blank a && blank b.
Proof. rewrite !blank_forallb. apply forallb_app. Qed.

Lemma truthy_strip (s : str) : truthy (strip s) = negb (blank s).
Proof. unfold blank. now rewrite negb_involutive. Qed.

(** ** Scanning *)

Section Scanning.

Variable m : matcher.

Lemma finditer_skip (n : nat) (s : str) :
  finditer m n s = finditer m 0 (skipn n s).
Proof.
  revert n. induction s as [|c s IH]; intros [|n]; try reflexivity.
  simpl finditer at 1. rewrite IH. reflexivity.
Qed.

Lemma finditer_pass (c : char) (s : str) :
  m (c :: s) = None \/ m (c :: s) = Some 0 ->
  finditer m 0 (c :: s) = Chr c :: finditer m 0 s.
Proof. intros [H | H]; simpl; now rewrite H. Qed.

Lemma finditer_match (c : char) (s : str) (n : nat) :
  m (c :: s) = Some (S n) ->
  finditer m 0 (c :: s)
  = Mat (firstn (S n) (c :: s)) :: finditer m 0 (skipn (S n) (c :: s)).
Proof.
  intros H. simpl finditer at 1. rewrite H, finditer_skip. reflexivity.
Qed.

(** Induction along the scan. *)
Lemma scan_ind (P : str -> Prop) :
  P [] ->
  (forall c s, m (c :: s) = None \/ m (c :: s) = Some 0 -> P s -> P (c :: s)) ->
  (forall c s n,
      m (c :: s) = Some (S n) -> P (skipn (S n) (c :: s)) -> P (c :: s)) ->
  forall s, P s.
Proof.
  intros Hnil Hpass Hmatch s.
  remember (length s) as k eqn:Hk.
  revert s Hk. induction k as [k IH] using lt_wf_ind. intros s ->.
  destruct s as [|c s]; [exact Hnil|].
  destruct (m (c :: s)) as [[|n]|] eqn:E.
  - apply Hpass; [now right|]. apply (IH (length s)); simpl; auto.
  - apply (Hmatch c s n E).
    apply (IH (length (skipn (S n) (c :: s)))); [|reflexivity].
    rewrite length_skipn. simpl. lia.
  - apply Hpass; [now left|]. apply (IH (length s)); simpl; auto.
Qed.

(** Every match the scan reports is one the matcher found. *)
Lemma finditer_Mat (x : str) (s : str) :
  In (Mat x) (finditer m 0 s) ->
  exists s' n, m s' = Some (S n) /\ x = firstn (S n) s'.
Proof.
  induction s as [|c s Hm IH|c s n Hm IH] using scan_ind.
  - intros [].
  - rewrite (finditer_pass _ _ Hm). intros [E | E]; [discriminate | auto].
  - rewrite (finditer_match _ _ _ Hm). intros [[= <-] | E]; eauto.
Qed.

(** The scan loses nothing of the subject. *)
Lemma finditer_text (s : str) : flat_map token_text (finditer m 0 s) = s.
Proof.
  induction s as [|c s Hm IH|c s n Hm IH] using scan_ind.
  - reflexivity.
  - rewrite (finditer_pass _ _ Hm). simpl. now rewrite IH.
  - rewrite (finditer_match _ _ _ Hm). cbn [flat_map token_text].
    rewrite IH. apply firstn_skipn.
Qed.

End Scanning.

Lemma split_tokens_nonempty (ts : list token) : split_tokens ts <> [].
Proof.
  destruct ts as [|[c | x] ts]; simpl; try discriminate.
  destruct (split_tokens ts); discriminate.
Qed.

Lemma concat_split_tokens (ts : list token) :
  concat (split_tokens ts) = flat_map token_text ts.
Proof.
  induction ts as [|[c | x] ts IH]; simpl; try reflexivity.
  - rewrite <- IH. destruct (split_tokens ts) eqn:E; [|reflexivity].
    now destruct (split_tokens_nonempty ts).
  - now rewrite IH.
Qed.

(** [re.split] is lossless: the pieces and the matches make up the subject. *)
Lemma concat_re_split (m : matcher) (s : str) : concat (re_split m s) = s.
Proof.
  unfold re_split. rewrite concat_split_tokens. apply finditer_text.
Qed.

(** ** The splitting loop *)

Lemma pair_ind {A : Type} (P : list A -> Prop) :
  P [] -> (forall a, P [a]) -> (forall a b l, P l -> P (a :: b :: l)) ->
  forall l, P l.
Proof.
  intros H0 H1 H2.
  fix rec 1. intros [|a [|b l]]; [exact H0 | apply H1 | apply H2, rec].
Qed.

(** The loop is a left fold of [split_step] over the full blocks. *)
Lemma split_loop_fold (max_chars : Z) (prosody_blocks : list str) :
  forall st,
    split_loop max_chars prosody_blocks st
    = fold_left (fun st full_block => split_step max_chars full_block st)
                (full_blocks prosody_blocks) st.
Proof.
  induction prosody_blocks as [|a|a b l IH] using pair_ind; intros st;
    try reflexivity.
  cbn [split_loop full_blocks fold_left]. apply IH.
Qed.

Lemma concat_full_blocks (l : list str) : concat (full_blocks l) = concat l.
Proof.
  induction l as [|a|a b l IH] using pair_ind; simpl.
  - reflexivity.
  - now rewrite !app_nil_r.
  - now rewrite IH, app_assoc.
Qed.

Lemma full_blocks_Chr (c : char) (ts : list token) :
  full_blocks (split_tokens (Chr c :: ts))
  = match full_blocks (split_tokens ts) with
    | b :: bs => (c :: b) :: bs
    | [] => []
    end.
Proof.
  simpl. destruct (split_tokens ts) as [|piece [|t rest]] eqn:E.
  - now destruct (split_tokens_nonempty ts).
  - reflexivity.
  - reflexivity.
Qed.

(** With matches that are not blank, every full block but the last holds a
    match and is not blank. *)
Lemma full_blocks_split_tokens (ts : list token) :
  (forall x, In (Mat x) ts -> blank x = false) ->
  exists bs tail,
    full_blocks (split_tokens ts) = bs ++ [tail]
    /\ Forall (fun b => blank b = false) bs.
Proof.
  induction ts as [|[c | x] ts IH]; intros Hm.
  - exists [], []. split; [reflexivity | constructor].
  - destruct IH as (bs & tail & E & Hbs).
    { intros x Hx. apply Hm. now right. }
    rewrite full_blocks_Chr, E.
    destruct bs as [|b bs]; simpl.
    + exists [], (c :: tail). split; [reflexivity | constructor].
    + exists ((c :: b) :: bs), tail. split; [reflexivity|].
      inversion Hbs as [|? ? Hb Hbs']; subst. constructor; [|exact Hbs'].
      change (c :: b) with ([c] ++ b). rewrite blank_app, Hb.
      apply andb_false_r.
  - destruct IH as (bs & tail & E & Hbs).
    { intros y Hy. apply Hm. now right. }
    exists (x :: bs), tail. cbn [split_tokens full_blocks app].
    rewrite E. split; [reflexivity|].
    constructor; [|exact Hbs]. apply Hm. now left.
Qed.

Lemma prosody_blocks_shape (content : str) :
  exists bs tail,
    full_blocks (re_split prosody_pattern content) = bs ++ [tail]
    /\ Forall (fun b => blank b = false) bs
    /\ concat bs ++ tail = content.
Proof.
  destruct (full_blocks_split_tokens (finditer prosody_pattern 0 content))
    as (bs & tail & E & Hbs).
  - intros x Hx. apply finditer_Mat in Hx as (s' & n & Hs' & ->).
    unfold prosody_pattern in Hs'.
    destruct (startswith PROSODY_CLOSE s') eqn:P; [|discriminate].
    injection Hs' as <-. destruct (startswith_inv _ _ P) as [r ->].
    reflexivity.
  - exists bs, tail. repeat split; try assumption.
    rewrite <- (concat_re_split prosody_pattern content) at 1.
    fold (re_split prosody_pattern content) in E.
    rewrite <- (concat_full_blocks (re_split prosody_pattern content)).
    rewrite E, concat_app. simpl. now rewrite app_nil_r.
Qed.

Lemma fits_mono (max_chars : Z) (seen more : list str) (c : str) :
  fits max_chars seen c -> fits max_chars (seen ++ more) c.
Proof.
  intros [H | H]; [now left | right]. apply in_or_app. now left.
Qed.

Lemma kept_app (a b : list str) : kept (a ++ b) = kept a ++ kept b.
Proof. apply filter_app. Qed.

Lemma kept_all (bs : list str) :
  Forall (fun b => blank b = false) bs -> kept bs = bs.
Proof.
  induction 1 as [|b bs Hb _ IH]; simpl; [reflexivity|].
  now rewrite Hb, IH.
Qed.

Lemma truthy_false (s : str) : truthy s = false -> s = [].
Proof. destruct s; [reflexivity | discriminate]. Qed.

Lemma loop_inv_init (max_chars : Z) : loop_inv max_chars [] ([], []).
Proof.
  exists []. simpl. repeat split; auto.
Qed.

Lemma loop_inv_step (max_chars : Z) (seen : list str) (full_block : str)
      (st : list str * str) :
  loop_inv max_chars seen st ->
  loop_inv max_chars (seen ++ [full_block]) (split_step max_chars full_block st).
Proof.
  destruct st as [segments current].
  intros (cs & Hsegs & Hcat & Hcur & Hnb & Hfit & Hcurfit).
  simpl in Hsegs, Hcat, Hcur, Hcurfit.
  unfold split_step. fold (blank full_block).
  assert (Hfit' : Forall (fits max_chars (seen ++ [full_block])) cs).
  { eapply Forall_impl; [|exact Hfit]. intros c. apply fits_mono. }
  destruct (blank full_block) eqn:B.
  - exists cs. simpl. rewrite kept_app. simpl. rewrite B. simpl.
    rewrite app_nil_r. repeat split; auto.
    destruct Hcurfit as [H | H]; [now left | right]. now apply fits_mono.
  - assert (K : concat (kept (seen ++ [full_block]))
                = concat (kept seen) ++ full_block).
    { rewrite kept_app, concat_app. simpl. rewrite B. simpl.
      now rewrite app_nil_r. }
    destruct (truthy current) eqn:T; cbn [andb].
    + destruct (len (speak (current ++ full_block)) >? max_chars)%Z eqn:G.
      * exists (cs ++ [current]). simpl.
        assert (Hc : current <> []) by (intros ->; discriminate).
        repeat split.
        -- rewrite Hsegs, map_app. reflexivity.
        -- rewrite K, <- Hcat, concat_app. simpl.
           now rewrite app_nil_r.
        -- now right.
        -- apply Forall_app. split; [exact Hnb|].
           constructor; [|constructor]. destruct Hcur; congruence.
        -- apply Forall_app. split; [exact Hfit'|].
           constructor; [|constructor].
           destruct Hcurfit as [H | H]; [congruence | now apply fits_mono].
        -- right. right. apply in_or_app. right. now left.
      * exists cs. simpl. repeat split; auto.
        -- now rewrite K, <- Hcat, app_assoc.
        -- right. rewrite blank_app, B. apply andb_false_r.
        -- right. left. rewrite Z.gtb_ltb in G. now apply Z.ltb_ge in G.
    + apply truthy_false in T. subst current. exists cs. simpl.
      repeat split; auto.
      * rewrite K, <- Hcat, app_nil_r. reflexivity.
      * right. right. apply in_or_app. right. now left.
Qed.

Lemma loop_inv_fold (max_chars : Z) (bs : list str) :
  forall seen st,
    loop_inv max_chars seen st ->
    loop_inv max_chars (seen ++ bs)
             (fold_left (fun st full_block => split_step max_chars full_block st)
                        bs st).
Proof.
  induction bs as [|b bs IH]; intros seen st H; simpl.
  - now rewrite app_nil_r.
  - change (b :: bs) with ([b] ++ bs). rewrite app_assoc.
    apply IH, loop_inv_step, H.
Qed.

(** What the splitting path produces: wrapped contents that are not blank,
    each fitting, which make up the content but for a blank remainder. *)
Lemma split_segments_spec (max_chars : Z) (content : str) :
  exists cs tail,
    split_segments max_chars content = map speak cs
    /\ concat cs ++ tail = content
    /\ blank tail = true
    /\ Forall (fun c => blank c = false) cs
    /\ Forall (fits max_chars (full_blocks (re_split prosody_pattern content)))
              cs.
Proof.
  unfold split_segments. rewrite split_loop_fold.
  pose proof (loop_inv_fold max_chars
                (full_blocks (re_split prosody_pattern content)) [] ([], [])
                (loop_inv_init max_chars)) as H.
  cbn [app] in H.
  destruct (fold_left _ _ _) as [segments current].
  destruct H as (cs & Hsegs & Hcat & Hcur & Hnb & Hfit & Hcurfit).
  simpl in Hsegs, Hcat, Hcur, Hcurfit. subst segments.
  destruct (prosody_blocks_shape content) as (bs & last & E & Hbs & Hcontent).
  rewrite E in *.
  assert (exists cs',
             (if truthy (strip current)
              then map speak cs ++ [speak current] else map speak cs)
             = map speak cs'
             /\ concat cs' = concat (kept (bs ++ [last]))
             /\ Forall (fun c => blank c = false) cs'
             /\ Forall (fits max_chars (bs ++ [last])) cs')
    as (cs' & Hres & Hcat' & Hnb' & Hfit').
  { rewrite truthy_strip. destruct (blank current) eqn:B; cbn [negb].
    - destruct Hcur as [-> | Hcur]; [|congruence].
      exists cs. rewrite app_nil_r in Hcat. auto.
    - exists (cs ++ [current]). repeat split.
      + now rewrite map_app.
      + rewrite concat_app. simpl. now rewrite app_nil_r.
      + apply Forall_app. split; [exact Hnb | now repeat constructor].
      + apply Forall_app. split; [exact Hfit|].
        constructor; [|constructor].
        destruct Hcurfit as [-> | Hf]; [discriminate | exact Hf]. }
  rewrite kept_app, (kept_all _ Hbs), concat_app in Hcat'.
  exists cs', (if blank last then last else []).
  repeat split; try assumption.
  - rewrite Hcat', <- Hcontent. unfold kept. simpl.
    destruct (blank last); simpl; now rewrite ?app_nil_r.
  - destruct (blank last) eqn:B; [exact B | reflexivity].
Qed.

(** ** [split_for_polly] *)

Lemma unwrap_speak (c : str) : unwrap (speak c) = c.
Proof.
  unfold unwrap, speak.
  rewrite skipn_app, skipn_all, Nat.sub_diag. cbn [app skipn].
  rewrite !length_app.
  replace (length SPEAK_OPEN + (length c + length SPEAK_CLOSE)
           - length SPEAK_OPEN - length SPEAK_CLOSE) with (length c) by lia.
  rewrite firstn_app, firstn_all, Nat.sub_diag. cbn [firstn].
  apply app_nil_r.
Qed.

Lemma map_unwrap_speak (cs : list str) : map unwrap (map speak cs) = cs.
Proof.
  induction cs as [|c cs IH]; simpl; [reflexivity|].
  now rewrite unwrap_speak, IH.
Qed.

(** The three ways [split_for_polly] returns. *)
Lemma split_for_polly_cases (text : str) (max_chars : Z) :
  ((len (full_ssml text) <= max_chars)%Z
   /\ split_for_polly text max_chars = [full_ssml text])
  \/ ((max_chars < len (full_ssml text))%Z
      /\ split_segments max_chars (combined_content text) = []
      /\ split_for_polly text max_chars = [full_ssml text])
  \/ ((max_chars < len (full_ssml text))%Z
      /\ split_segments max_chars (combined_content text) <> []
      /\ split_for_polly text max_chars
         = split_segments max_chars (combined_content text)).
Proof.
  unfold split_for_polly.
  destruct (len (full_ssml text) <=? max_chars)%Z eqn:L.
  - left. apply Z.leb_le in L. auto.
  - right. apply Z.leb_gt in L.
    destruct (split_segments max_chars (combined_content text)) eqn:S.
    + left. auto.
    + right. repeat split; [exact L | discriminate].
Qed.

(** The segments are wrapped pieces of the joined content, in order, and
    make it up but for a blank remainder. *)
Lemma split_for_polly_contents (text : str) (max_chars : Z) :
  exists cs tail,
    split_for_polly text max_chars = map speak cs
    /\ concat cs ++ tail = combined_content text
    /\ blank tail = true
    /\ (1 < length cs -> Forall (fun c => blank c = false) cs).
Proof.
  destruct (split_for_polly_cases text max_chars)
    as [[_ E] | [(_ & _ & E) | (_ & _ & E)]].
  - exists [combined_content text], []. simpl. rewrite !app_nil_r.
    repeat split; [exact E | lia].
  - exists [combined_content text], []. simpl. rewrite !app_nil_r.
    repeat split; [exact E | lia].
  - destruct (split_segments_spec max_chars (combined_content text))
      as (cs & tail & Hs & Hcat & Htail & Hnb & _).
    exists cs, tail. rewrite E. auto.
Qed.

(** Markers go, and the blocks' contents come in the order of the script. *)
Example split_for_polly_two_blocks :
  split_for_polly
    (lit "[SECTION: Intro]" ++ [LF] ++ lit "<speak>a</speak>" ++ [LF]
     ++ lit "[SECTION: Demo]" ++ [LF] ++ lit "<speak>b</speak>")
    3000
  = [lit "<speak>a" ++ [LF] ++ lit "b</speak>"].
Proof. vm_compute. reflexivity. Qed.

(** C5: [split_for_polly] never returns an empty list; when the splitting
    loop leaves no segment, the joined content is blank and the result is
    the one full wrapped content, whatever its length. *)
Theorem split_for_polly_fallback (text : str) (max_chars : Z) :
  split_for_polly text max_chars <> []
  /\ (split_segments max_chars (combined_content text) = [] ->
      split_for_polly text max_chars
      = [lit "<speak>" ++ combined_content text ++ lit "</speak>"]
      /\ blank (combined_content text) = true).
Proof.
  split.
  - destruct (split_for_polly_cases text max_chars)
      as [[_ E] | [(_ & _ & E) | (_ & Hne & E)]]; rewrite E;
      [discriminate | discriminate | exact Hne].
  - intros S. split.
    + destruct (split_for_polly_cases text max_chars)
        as [[_ E] | [(_ & _ & E) | (_ & Hne & _)]];
        [exact E | exact E | contradiction].
    + destruct (split_segments_spec max_chars (combined_content text))
        as (cs & tail & Hs & Hcat & Htail & _).
      rewrite S in Hs. destruct cs; [|discriminate].
      simpl in Hcat. now rewrite <- Hcat.
Qed.

(** C5, the oversized fallback at work: a blank content longer than the
    limit comes back whole. *)
Example split_for_polly_blank_oversized :
  split_segments 10 (combined_content (lit "<speak> </speak>")) = []
  /\ split_for_polly (lit "<speak> </speak>") 10 = [lit "<speak> </speak>"]
  /\ (len (lit "<speak> </speak>") > 10)%Z.
Proof. vm_compute. repeat split. Qed.

(** C2, as stated, fails: a single block that alone exceeds the limit is
    returned as a segment of its own, produced by the loop and not by the
    fallback. *)
Lemma split_for_polly_oversized_block :
  let text := lit "<speak>aaaaaaaaaaaaaaaaaaaaaaa</speak>" in
  split_for_polly text 20 = [text]
  /\ (len text > 20)%Z
  /\ split_segments 20 (combined_content text) = [text].
Proof. vm_compute. repeat split. Qed.

(** C2, amended: every string returned by [split_for_polly] is no longer
    than [max_chars], unless it wraps one single block of the split at
    [</prosody>] (a block that alone exceeds the limit), or it is the full
    wrapped content returned because the loop left no segment. *)
Theorem split_for_polly_length (text : str) (max_chars : Z) :
  Forall
    (fun segment =>
       (len segment <= max_chars)%Z
       \/ (exists block,
              In block (full_blocks
                          (re_split prosody_pattern (combined_content text)))
              /\ blank block = false
              /\ segment = speak block)
       \/ (split_segments max_chars (combined_content text) = []
           /\ segment = full_ssml text))
    (split_for_polly text max_chars).
Proof.
  destruct (split_for_polly_cases text max_chars)
    as [[L E] | [(_ & S & E) | (_ & _ & E)]]; rewrite E.
  - constructor; [now left | constructor].
  - constructor; [right; right; auto | constructor].
  - destruct (split_segments_spec max_chars (combined_content text))
      as (cs & tail & Hs & _ & _ & Hnb & Hfit).
    apply Forall_forall. intros segment Hin. rewrite Hs in Hin.
    apply in_map_iff in Hin as (c & <- & Hc).
    rewrite Forall_forall in Hnb, Hfit.
    destruct (Hfit c Hc) as [H | H]; [now left|].
    right. left. exists c. auto.
Qed.

(** C1, as stated, fails: the script is well-formed and gives three
    segments; the first and the last are not well-formed (an element is cut
    in two by the split), and the contents of the three do not make up the
    joined content (a blank last block is dropped). *)
Lemma split_for_polly_dangling_and_lossy :
  speak_document nested_script = true
  /\ split_for_polly nested_script 40
     = [lit "<speak><p><prosody>a</prosody></speak>";
        lit "<speak><prosody>b</prosody></speak>";
        lit "<speak></p><prosody>c</prosody></speak>"]
  /\ map speak_document (split_for_polly nested_script 40)
     = [false; true; false]
  /\ concat (map unwrap (split_for_polly nested_script 40))
     <> combined_content nested_script.
Proof.
  repeat split; try (vm_compute; reflexivity).
  vm_compute. discriminate.
Qed.

(** ** Scripts without a [<speak>] block *)

Lemma findall_pass (c : char) (s : str) :
  speak_pattern (c :: s) = None ->
  re_findall speak_pattern speak_group (c :: s)
  = re_findall speak_pattern speak_group s.
Proof.
  intros H. unfold re_findall. rewrite finditer_pass by now left.
  reflexivity.
Qed.

Lemma findall_no_open (s : str) :
  contains SPEAK_OPEN s = false ->
  re_findall speak_pattern speak_group s = [].
Proof.
  induction s as [|c s IH]; intros H; [reflexivity|].
  rewrite findall_pass.
  - apply IH. apply (contains_false_suffix _ [c] s H).
  - unfold speak_pattern. now rewrite (contains_false_head _ _ H).
Qed.

Lemma sub_no_marker (s : str) :
  re_search section_pattern s = false -> re_sub_empty section_pattern s = s.
Proof.
  induction s as [|c s IH]; intros H; [reflexivity|].
  simpl in H. destruct (section_pattern (c :: s)) eqn:E; [discriminate|].
  unfold re_sub_empty. rewrite finditer_pass by now left.
  simpl. f_equal. now apply IH.
Qed.

(** C4, as stated, fails: the text holds no ['<speak>'], but the removal of
    the marker puts one together, and the text between the tags comes
    back. *)
Lemma split_for_polly_marker_inside_tag :
  contains SPEAK_OPEN (lit "<spe[SECTION: x]ak>hi</speak>") = false
  /\ split_for_polly (lit "<spe[SECTION: x]ak>hi</speak>") 3000
     = [lit "<speak>hi</speak>"]
  /\ split_for_polly (lit "<spe[SECTION: x]ak>hi</speak>") 3000
     <> [lit "<speak></speak>"].
Proof.
  repeat split; try (vm_compute; reflexivity).
  vm_compute. discriminate.
Qed.

(** C4, amended: when the text left by the removal of the markers holds no
    ['<speak>'] - as for every text with neither ['<speak>'] nor a marker -
    and [max_chars] is at least 15, [split_for_polly] returns exactly
    [['<speak></speak>']]. *)
Theorem split_for_polly_no_speak (text : str) (max_chars : Z) :
  (15 <= max_chars)%Z ->
  contains SPEAK_OPEN (text_without_markers text) = false
  \/ (contains SPEAK_OPEN text = false
      /\ re_search section_pattern text = false) ->
  split_for_polly text max_chars = [lit "<speak></speak>"].
Proof.
  intros Hmax H.
  assert (Hs : contains SPEAK_OPEN (text_without_markers text) = false).
  { destruct H as [H | [H1 H2]]; [exact H|].
    unfold text_without_markers. now rewrite sub_no_marker. }
  assert (Hc : combined_content text = []).
  { unfold combined_content, speak_contents. now rewrite findall_no_open. }
  destruct (split_for_polly_cases text max_chars)
    as [[_ E] | [(L & _) | (L & _)]].
  - rewrite E. unfold full_ssml. now rewrite Hc.
  - unfold full_ssml in L. rewrite Hc in L. vm_compute in L.
    exfalso. revert L. change (~ (max_chars < 15)%Z). lia.
  - unfold full_ssml in L. rewrite Hc in L. vm_compute in L.
    exfalso. revert L. change (~ (max_chars < 15)%Z). lia.
Qed.

Lemma split_for_polly_no_speak_witness :
  split_for_polly (lit "Welcome to SkillSwap.") 3000 = [lit "<speak></speak>"].
Proof.
  apply (split_for_polly_no_speak (lit "Welcome to SkillSwap.") 3000).
  - vm_compute. discriminate.
  - left. vm_compute. reflexivity.
Defined.

(** ** Markers in the segments *)

Lemma span_stops (s : str) :
  In RBRACKET s ->
  exists rest, skipn (span_not_rbracket s) s = RBRACKET :: rest.
Proof.
  induction s as [|c s IH]; intros H; [destruct H|].
  simpl. destruct (N.eqb_spec c RBRACKET) as [-> | Hne].
  - now exists s.
  - destruct H as [H | H]; [congruence | auto].
Qed.

Lemma span_rest (s : str) (c : char) (rest : str) :
  skipn (span_not_rbracket s) s = c :: rest -> In RBRACKET s.
Proof.
  induction s as [|x s IH]; simpl; [discriminate|].
  destruct (N.eqb_spec x RBRACKET) as [-> | Hne]; [now left|].
  simpl. intros H. right. auto.
Qed.

Lemma section_pattern_iff (s : str) :
  section_pattern s <> None <->
  exists body, s = SECTION_OPEN ++ body /\ marker_body body.
Proof.
  unfold section_pattern. split.
  - destruct (startswith SECTION_OPEN s) eqn:P; [|congruence].
    destruct (startswith_inv _ _ P) as [body ->].
    rewrite skipn_app, skipn_all, Nat.sub_diag. cbn [app skipn].
    intros H. exists body. split; [reflexivity|].
    destruct body as [|x r]; [now destruct H|].
    simpl in H. destruct (N.eqb_spec x RBRACKET) as [-> | Hne];
      [now destruct H|].
    exists x, r. repeat split; [exact Hne|].
    simpl in H. destruct (skipn (span_not_rbracket r) r) eqn:K;
      [now destruct H|].
    eapply span_rest, K.
  - intros (body & -> & x & r & -> & Hne & Hin).
    rewrite startswith_app, skipn_app, skipn_all, Nat.sub_diag.
    cbn [app skipn]. simpl span_not_rbracket.
    destruct (N.eqb_spec x RBRACKET) as [E | _]; [contradiction|].
    simpl skipn. destruct (span_stops _ Hin) as [rest ->]. discriminate.
Qed.

Lemma re_search_iff (m : matcher) (s : str) :
  re_search m s = true <-> exists pre suf, s = pre ++ suf /\ m suf <> None.
Proof.
  split.
  - induction s as [|c s IH]; simpl.
    + destruct (m []) eqn:E; [|discriminate].
      intros _. exists [], []. split; [reflexivity | congruence].
    + destruct (m (c :: s)) eqn:E.
      * intros _. exists [], (c :: s). split; [reflexivity | congruence].
      * intros H. destruct (IH H) as (pre & suf & -> & Hs).
        now exists (c :: pre), suf.
  - intros (pre & suf & -> & H).
    induction pre as [|c pre IH]; simpl.
    + destruct suf; simpl; destruct (m _); congruence.
    + destruct (m (c :: pre ++ suf)); [reflexivity | exact IH].
Qed.

Lemma re_search_section (s : str) :
  re_search section_pattern s = true <-> has_marker s.
Proof.
  rewrite re_search_iff. unfold has_marker. split.
  - intros (pre & suf & -> & H). apply section_pattern_iff in H.
    destruct H as (body & -> & Hb). eauto.
  - intros (pre & body & -> & Hb). exists pre, (SECTION_OPEN ++ body).
    split; [reflexivity|]. apply section_pattern_iff. eauto.
Qed.

Lemma marker_body_app (body more : str) :
  marker_body body -> marker_body (body ++ more).
Proof.
  intros (x & r & -> & Hne & Hin). exists x, (r ++ more).
  repeat split; [exact Hne|]. apply in_or_app. now left.
Qed.

Lemma has_marker_infix (a c b : str) :
  has_marker c -> has_marker (a ++ c ++ b).
Proof.
  intros (pre & body & -> & Hb). exists (a ++ pre), (body ++ b).
  split; [now rewrite <- !app_assoc|]. now apply marker_body_app.
Qed.

(** Splitting an equation between appended lists at an element that one
    side's outer part does not hold. *)
Lemma app_split_left {A : Type} (a b p : list A) (x : A) (r : list A) :
  a ++ b = p ++ x :: r -> ~ In x a ->
  exists p', p = a ++ p' /\ b = p' ++ x :: r.
Proof.
  revert p. induction a as [|y a IH]; intros p E Hne.
  - now exists p.
  - destruct p as [|z p]; simpl in E; injection E as -> E.
    + destruct Hne. now left.
    + destruct (IH p E) as (p' & -> & ->).
      * intros H. apply Hne. now right.
      * now exists p'.
Qed.

Lemma app_split_right {A : Type} (a b p : list A) (x : A) (r : list A) :
  b ++ a = p ++ x :: r -> ~ In x a ->
  exists r', r = r' ++ a /\ b = p ++ x :: r'.
Proof.
  revert b. induction p as [|z p IH]; intros b E Hne.
  - destruct b as [|y b]; simpl in E.
    + destruct Hne. rewrite E. now left.
    + injection E as -> E. now exists b.
  - destruct b as [|y b]; simpl in E.
    + destruct Hne. rewrite E. right. apply in_or_app. right. now left.
    + injection E as -> E. destruct (IH b E Hne) as (r' & -> & ->).
      now exists r'.
Qed.

(** A marker in a segment lies in its content. *)
Lemma has_marker_speak (c : str) : has_marker (speak c) -> has_marker c.
Proof.
  intros (pre & body & E & x & r & -> & Hne & Hin).
  unfold speak in E. change SECTION_OPEN with (91%N :: lit "SECTION: ") in E.
  cbn [app] in E.
  destruct (app_split_left _ _ _ _ _ E) as (pre' & -> & E').
  { vm_compute. intuition discriminate. }
  apply in_split in Hin as (r1 & r2 & ->).
  assert (E2 : c ++ SPEAK_CLOSE
               = (pre' ++ SECTION_OPEN ++ x :: r1) ++ RBRACKET :: r2).
  { rewrite E'. rewrite <- !app_assoc. reflexivity. }
  destruct (app_split_right _ _ _ _ _ E2) as (r2' & -> & ->).
  { vm_compute. intuition discriminate. }
  exists pre', (x :: r1 ++ RBRACKET :: r2'). split.
  - now rewrite <- !app_assoc.
  - exists x, (r1 ++ RBRACKET :: r2'). repeat split; [exact Hne|].
    apply in_or_app. right. now left.
Qed.

(** A match of [speak_pattern] is a wrapped group. *)
Lemma speak_pattern_Some (s : str) (n : nat) :
  speak_pattern s = Some n ->
  exists g rest, s = speak g ++ rest /\ n = length (speak g).
Proof.
  unfold speak_pattern.
  destruct (startswith SPEAK_OPEN s) eqn:P; [|discriminate].
  destruct (startswith_inv _ _ P) as [body ->].
  rewrite skipn_app, skipn_all, Nat.sub_diag. cbn [app skipn].
  destruct (find SPEAK_CLOSE body) as [k|] eqn:F; [|discriminate].
  intros [= <-]. destruct (find_Some _ _ _ F) as (r & E & Hk).
  exists (firstn k body), r. split.
  - unfold speak. rewrite <- !app_assoc. f_equal. exact E.
  - unfold speak. rewrite !length_app, length_firstn.
    change (length SPEAK_OPEN) with 7. change (length SPEAK_CLOSE) with 8. lia.
Qed.

Lemma findall_match (c : char) (s : str) (n : nat) :
  speak_pattern (c :: s) = Some (S n) ->
  exists g,
    c :: s = speak g ++ skipn (S n) (c :: s)
    /\ re_findall speak_pattern speak_group (c :: s)
       = g :: re_findall speak_pattern speak_group (skipn (S n) (c :: s)).
Proof.
  intros H. destruct (speak_pattern_Some _ _ H) as (g & rest & E & Hn).
  exists g. unfold re_findall. rewrite (finditer_match _ _ _ _ H).
  rewrite Hn, E.
  rewrite firstn_app, firstn_all, Nat.sub_diag, skipn_app, skipn_all,
    Nat.sub_diag.
  cbn [firstn skipn app flat_map]. rewrite app_nil_r.
  change (speak_group (speak g)) with (unwrap (speak g)).
  now rewrite unwrap_speak.
Qed.

(** Induction along [re.findall(speak_pattern, t)]: a character is passed
    over, or a wrapped group is taken. *)
Lemma findall_ind (P : str -> list str -> Prop) :
  P [] [] ->
  (forall c s l, P s l -> P (c :: s) l) ->
  (forall g rest l, P rest l -> P (speak g ++ rest) (g :: l)) ->
  forall t, P t (re_findall speak_pattern speak_group t).
Proof.
  intros Hnil Hpass Hmatch t.
  induction t as [|c s Hm IH|c s n Hm IH] using (scan_ind speak_pattern).
  - exact Hnil.
  - unfold re_findall. rewrite (finditer_pass _ _ _ Hm). apply Hpass, IH.
  - destruct (findall_match _ _ _ Hm) as (g & E & ->).
    set (rest := skipn (S n) (c :: s)) in *.
    rewrite E. apply Hmatch, IH.
Qed.

Lemma join_cons (sep x : str) (l : list str) :
  join sep (x :: l)
  = x ++ match l with [] => [] | _ :: _ => sep ++ join sep l end.
Proof. destruct l; simpl; [now rewrite app_nil_r | reflexivity]. Qed.

(** Joining the contents of the blocks puts no marker together, and no
    closing bracket comes from elsewhere than the text. *)
Lemma join_findall_marker (t : str) :
  (has_marker (join [LF] (re_findall speak_pattern speak_group t)) ->
   has_marker t)
  /\ (In RBRACKET (join [LF] (re_findall speak_pattern speak_group t)) ->
      In RBRACKET t).
Proof.
  apply (findall_ind
           (fun t l => (has_marker (join [LF] l) -> has_marker t)
                       /\ (In RBRACKET (join [LF] l) -> In RBRACKET t))).
  - split; [|intros []].
    intros (pre & body & E & _). destruct pre; discriminate.
  - intros c s l [IH1 IH2]. split.
    + intros H. apply IH1 in H.
      apply (has_marker_infix [c] s []) in H. now rewrite app_nil_r in H.
    + intros H. right. auto.
  - intros g rest l [IH1 IH2]. rewrite join_cons. split.
    + destruct l as [|y l'].
      * rewrite app_nil_r. intros H. unfold speak. rewrite <- !app_assoc.
        now apply has_marker_infix.
      * set (J := join [LF] (y :: l')) in *.
        intros (pre & body & E & Hb).
        apply app_eq_app in E as (l0 & [[E1 E2] | [E1 E2]]).
        -- cbn [app] in E2.
           destruct (app_split_left _ _ _ _ _ E2) as (p' & -> & ->).
           { vm_compute. intuition discriminate. }
           subst g. exists (SPEAK_OPEN ++ pre), (p' ++ SPEAK_CLOSE ++ rest).
           split; [unfold speak; now rewrite <- !app_assoc|].
           destruct Hb as (x & r & Ex & Hne & Hin).
           destruct p' as [|x' p'']; cbn [app] in Ex; injection Ex as <- <-.
           ++ exists LT, (lit "/speak>" ++ rest). repeat split.
              ** discriminate.
              ** apply in_or_app. right. auto.
           ++ exists x', (p'' ++ SPEAK_CLOSE ++ rest).
              repeat split; [exact Hne|].
              apply in_app_or in Hin as [Hin | [Hin | Hin]].
              ** apply in_or_app. now left.
              ** discriminate.
              ** apply in_or_app. right. apply in_or_app. right. auto.
        -- destruct l0 as [|z l0']; cbn [app] in E2.
           ++ discriminate.
           ++ injection E2 as <- E2.
              assert (HJ : has_marker J) by (exists l0', body; auto).
              apply IH1 in HJ.
              apply (has_marker_infix (speak g) rest []) in HJ.
              now rewrite app_nil_r in HJ.
    + intros H. apply in_app_or in H as [H | H].
      * unfold speak. apply in_or_app. left. apply in_or_app. right.
        apply in_or_app. now left.
      * destruct l as [|y l']; [destruct H|].
        cbn [app] in H. destruct H as [H | H]; [discriminate|].
        apply in_or_app. right. auto.
Qed.

(** C6, as stated, fails: the one marker of the script is removed, and what
    is left of the text around it reads as a marker, which the single
    segment holds. *)
Lemma split_for_polly_marker_left :
  split_for_polly nested_marker_script 3000
  = [lit "<speak>[SECTION: y]</speak>"]
  /\ re_search section_pattern (lit "<speak>[SECTION: y]</speak>") = true.
Proof. split; vm_compute; reflexivity. Qed.

(** Looking for the blocks, joining their contents and cutting them puts no
    marker together: when the text left by the removal holds no match of the
    pattern, no segment holds one. *)
Lemma split_for_polly_no_new_marker (text : str) (max_chars : Z) :
  re_search section_pattern (text_without_markers text) = false ->
  Forall (fun segment => re_search section_pattern segment = false)
         (split_for_polly text max_chars).
Proof.
  intros Hclean. apply Forall_forall. intros segment Hin.
  destruct (re_search section_pattern segment) eqn:R; [|reflexivity].
  exfalso. apply re_search_section in R.
  destruct (split_for_polly_contents text max_chars)
    as (cs & tail & E & Hcat & _).
  rewrite E in Hin. apply in_map_iff in Hin as (c & <- & Hc).
  apply has_marker_speak in R.
  apply in_split in Hc as (l1 & l2 & ->).
  rewrite concat_app in Hcat. cbn [concat] in Hcat.
  rewrite <- !app_assoc in Hcat.
  apply (has_marker_infix (concat l1) c (concat l2 ++ tail)) in R.
  rewrite Hcat in R. apply join_findall_marker in R.
  apply re_search_section in R.
  unfold text_without_markers in *. congruence.
Qed.

(** * Further properties *)

(** ** [synthesize_speech]: results *)

Section SynthesisResults.

Variable service : Type.
Variable polly : request -> service -> result response * service.

(** The whole of one call, by what the service answers. *)
Lemma synthesize_speech_run
      (text : str) (is_ssml : bool) (sv : service) (log : list request) :
  let text_type := if is_ssml then lit "ssml" else lit "text" in
  let neural := synthesis_request (lit "neural") text text_type in
  let standard := synthesis_request (lit "standard") text text_type in
  let first := polly neural sv in
  let second := polly standard (snd first) in
  synthesize_speech polly text is_ssml (sv, log)
  = match fst first with
    | Ok resp => (audio_of_response resp, (snd first, log ++ [neural]))
    | Raise e =>
        if rejected_as_unsupported (fst first)
        then (match fst second with
              | Ok resp => audio_of_response resp
              | Raise e2 => Raise (synthesis_failure e2)
              end, (snd second, log ++ [neural; standard]))
        else (Raise (synthesis_failure e), (snd first, log ++ [neural]))
    end.
Proof.
  cbv zeta.
  unfold synthesize_speech, try_except, bind, client_synthesize_speech,
    raise, ret, rejected_as_unsupported, synthesis_failure, audio_of_response.
  set (tt := if is_ssml then lit "ssml" else lit "text").
  destruct (polly (synthesis_request (lit "neural") text tt) sv)
    as [[resp | e] sv1]; cbn [fst snd].
  - destruct resp as [[a | e] |]; cbn [is_Exception];
      try reflexivity; unfold synthesis_failure; now destruct (is_Exception e).
  - destruct (is_Exception e) eqn:Ee; cbn [andb]; [|now rewrite Ee].
    destruct (unsupported_by_neural (exn_str e)); [|now rewrite Ee].
    destruct (polly (synthesis_request (lit "standard") text tt) sv1)
      as [[resp | e2] sv2]; cbn [fst snd].
    + destruct resp as [[a | e3] |]; cbn [is_Exception];
        try (now rewrite <- app_assoc);
        unfold synthesis_failure; destruct (is_Exception e3);
        now rewrite <- app_assoc.
    + destruct (is_Exception e2) eqn:Ee2; rewrite <- app_assoc;
        cbn [app]; reflexivity.
Qed.

Ltac returns_case :=
  split;
  [ intros H; try discriminate;
    first [ left; congruence | right; split; congruence ]
  | intros [H | [H1 H2]]; try discriminate; try congruence ].

(** X1: [synthesize_speech] returns audio exactly when the neural request
    answers with an audio stream whose [read()] gives it, or the neural
    request is rejected as unsupported and the standard request answers with
    such a stream; a stream whose [read()] raises gives no audio. *)
Theorem synthesize_speech_returns
        (text : str) (is_ssml : bool) (sv : service) (log : list request)
        (audio : bytes) :
  let text_type := if is_ssml then lit "ssml" else lit "text" in
  let first := polly (synthesis_request (lit "neural") text text_type) sv in
  let second :=
    polly (synthesis_request (lit "standard") text text_type) (snd first) in
  fst (synthesize_speech polly text is_ssml (sv, log)) = Ok audio
  <-> fst first = Ok (Some (Ok audio))
      \/ (rejected_as_unsupported (fst first) = true
          /\ fst second = Ok (Some (Ok audio))).
Proof.
  cbv zeta. rewrite synthesize_speech_run. cbv zeta.
  destruct (fst (polly (synthesis_request (lit "neural") text _) sv))
    as [[[a | e0] |] | e] eqn:E1;
    cbn [fst audio_of_response rejected_as_unsupported];
    try returns_case.
  - split; [intros [= ->]; now left|].
    intros [[= ->] | [H _]]; [reflexivity | discriminate].
  - destruct (is_Exception e && unsupported_by_neural (exn_str e)) eqn:R;
      cbn [fst]; [|returns_case].
    destruct (fst (polly (synthesis_request (lit "standard") text _) _))
      as [[[a | e3] |] | e2]; cbn [audio_of_response]; try returns_case.
    split; [intros [= ->]; right; now split|].
    intros [H | [_ [= ->]]]; [discriminate | reflexivity].
Qed.

(** X2: a response without an ['AudioStream'] entry, from the neural engine
    or from the standard engine after the fallback, makes
    [synthesize_speech] raise the exception that says so. *)
Theorem synthesize_speech_no_audio_stream
        (text : str) (is_ssml : bool) (sv : service) (log : list request) :
  let text_type := if is_ssml then lit "ssml" else lit "text" in
  let first := polly (synthesis_request (lit "neural") text text_type) sv in
  let second :=
    polly (synthesis_request (lit "standard") text text_type) (snd first) in
  fst first = Ok None
  \/ (rejected_as_unsupported (fst first) = true /\ fst second = Ok None) ->
  fst (synthesize_speech polly text is_ssml (sv, log))
  = Raise (Exception
             (lit "Polly synthesis failed: No audio stream in Polly response")).
Proof.
  cbv zeta. rewrite synthesize_speech_run. cbv zeta.
  intros [H | [R H]].
  - now rewrite H.
  - destruct (fst (polly (synthesis_request (lit "neural") text _) sv))
      as [resp | e] eqn:E1; [discriminate|].
    rewrite R. cbn [fst]. now rewrite H.
Qed.

(** X3: an exception of class [Exception] that leaves [synthesize_speech]
    is a plain [Exception] whose message starts with
    ['Polly synthesis failed: ']. *)
Theorem synthesize_speech_failure_message
        (text : str) (is_ssml : bool) (sv : service) (log : list request)
        (e : exn) :
  fst (synthesize_speech polly text is_ssml (sv, log)) = Raise e ->
  is_Exception e = true ->
  exists msg, e = Exception (lit "Polly synthesis failed: " ++ msg).
Proof.
  intros H He. revert H. rewrite synthesize_speech_run. cbv zeta.
  assert (Hfail : forall e0, Raise (synthesis_failure e0) = @Raise bytes e ->
                  exists msg, e = Exception (lit "Polly synthesis failed: " ++ msg)).
  { intros e0 [= <-]. unfold synthesis_failure in *.
    destruct (is_Exception e0) eqn:E0; [eauto | congruence]. }
  assert (Hresp : forall resp, audio_of_response resp = Raise e ->
                  exists msg, e = Exception (lit "Polly synthesis failed: " ++ msg)).
  { intros [[a | e0] |]; cbn [audio_of_response]; [discriminate | apply Hfail |].
    intros [= <-]. now exists (lit "No audio stream in Polly response"). }
  destruct (fst (polly (synthesis_request (lit "neural") text _) sv))
    as [resp | e1]; cbn [fst].
  - apply Hresp.
  - destruct (rejected_as_unsupported (Raise e1)); cbn [fst].
    + destruct (fst (polly (synthesis_request (lit "standard") text _) _))
        as [resp | e2]; [apply Hresp | apply Hfail].
    + apply Hfail.
Qed.

End SynthesisResults.

Lemma synthesize_speech_no_audio_stream_witness :
  fst (synthesize_speech silent_service (lit "<speak>hello</speak>") true
                         (tt, []))
  = Raise (Exception
             (lit "Polly synthesis failed: No audio stream in Polly response")).
Proof.
  apply (synthesize_speech_no_audio_stream unit silent_service
           (lit "<speak>hello</speak>") true tt []).
  left. reflexivity.
Defined.

Lemma synthesize_speech_failure_message_witness :
  exists msg,
    Exception (lit "Polly synthesis failed: No audio stream in Polly response")
    = Exception (lit "Polly synthesis failed: " ++ msg).
Proof.
  apply (synthesize_speech_failure_message unit silent_service
           (lit "<speak>hello</speak>") true tt []); reflexivity.
Defined.

(** ** [main]: the run as a whole *)

Lemma in_order_In (segments texts : list str) :
  in_order segments texts -> forall t, In t texts -> In t segments.
Proof.
  induction 1 as [segments | segment segments texts _ IH
                  | segment segments texts _ IH]; intros t Ht.
  - destruct Ht.
  - destruct Ht as [<- | Ht]; [now left | right; auto].
  - destruct Ht as [<- | [<- | Ht]]; [now left | now left | right; auto].
Qed.

Lemma in_order_length (segments texts : list str) :
  in_order segments texts -> length texts <= 2 * length segments.
Proof.
  induction 1; simpl in *; lia.
Qed.

Lemma program_request_synthesis (engine text text_type : str) :
  engine = lit "neural" \/ engine = lit "standard" ->
  program_request (synthesis_request engine text text_type).
Proof. intros H. unfold program_request. cbn. auto. Qed.

Section MainProperties.

Variable service : Type.
Variable polly : request -> service -> result response * service.

(** The requests of the synthesis loop follow the segments, and a loop that
    ends normally has added one chunk of audio for each segment. *)
Lemma synthesize_segments_spec (is_ssml : bool) (segments : list str) :
  forall (audio : list bytes) (sv : service) (log : list request),
  exists new,
    snd (snd (synthesize_segments polly segments is_ssml audio (sv, log)))
    = log ++ new
    /\ in_order segments (map Text new)
    /\ Forall program_request new
    /\ (forall out,
           fst (synthesize_segments polly segments is_ssml audio (sv, log))
           = Ok out ->
           exists chunks,
             out = audio ++ chunks /\ length chunks = length segments).
Proof.
  induction segments as [|segment rest IH]; intros audio sv log.
  - exists []. cbn. rewrite app_nil_r. repeat split; try constructor.
    intros out [= <-]. exists []. now rewrite app_nil_r.
  - cbn [synthesize_segments]. unfold bind, try_except.
    pose proof (synthesize_speech_log service polly segment is_ssml sv log)
      as L. cbv zeta in L.
    set (neural := synthesis_request (lit "neural") segment
                     (if is_ssml then lit "ssml" else lit "text")) in *.
    set (standard := synthesis_request (lit "standard") segment
                       (if is_ssml then lit "ssml" else lit "text")) in *.
    set (sent := neural :: (if rejected_as_unsupported (fst (polly neural sv))
                            then [standard] else [])) in *.
    assert (Hsent : Forall program_request sent
                    /\ forall texts, in_order rest texts ->
                                     in_order (segment :: rest)
                                              (map Text sent ++ texts)).
    { unfold sent. destruct (rejected_as_unsupported _); split;
        try (intros texts Ht; cbn; now constructor);
        repeat (constructor; [apply program_request_synthesis; auto|]);
        constructor. }
    destruct Hsent as [Hshape Horder].
    destruct (synthesize_speech polly segment is_ssml (sv, log))
      as [[a | e] [sv' log']]; cbn [snd] in L; subst log'.
    + destruct (IH (audio ++ [a]) sv' (log ++ sent))
        as (new & Hlog & Hord & Hsh & Hout).
      exists (sent ++ new). rewrite Hlog, map_app, app_assoc.
      repeat split; auto.
      * now apply Forall_app.
      * intros out Ho. destruct (Hout out Ho) as (chunks & -> & Hlen).
        exists (a :: chunks). rewrite <- app_assoc. cbn. now rewrite Hlen.
    + exists sent. split; [now destruct (is_Exception e)|]. repeat split.
      * rewrite <- (app_nil_r (map Text sent)). apply Horder. constructor.
      * exact Hshape.
      * destruct (is_Exception e); discriminate.
Qed.

Variable script_path : str.
Variable boto3_client : result service.
Variable write_output : bytes -> write_outcome.
Variable fs : filesystem.

(** X4: every request a run of [main] sends asks the neural or the
    standard engine for [mp3] audio in [en-US] with the voice [Kendra], and
    its text is one of the segments of the script. *)
Theorem main_requests_shape :
  Forall
    (fun r =>
       program_request r
       /\ exists script,
           fs script_path = Content script
           /\ In (Text r) (split_for_polly script 3000))
    (requests (main polly script_path boto3_client write_output fs)).
Proof.
  unfold main, read_script, open_read, exists_.
  destruct (fs script_path) as [| e | script] eqn:Hfs; cbn [negb].
  - constructor.
  - destruct (is_IOError e); constructor.
  - destruct (negb (truthy (strip script))); [constructor|].
    destruct boto3_client as [client | e]; [|constructor].
    destruct (synthesize_segments_spec (detect_ssml script)
                (split_for_polly script 3000) [] client [])
      as (new & Hlog & Hord & Hsh & _).
    destruct (synthesize_segments polly _ _ _ _) as [[out | e] [sv log]];
      cbn [snd app] in Hlog; subst log;
      [destruct (write_output _)|]; cbn [requests];
      apply Forall_forall; intros r Hr; (split;
        [ rewrite Forall_forall in Hsh; now apply Hsh
        | exists script; split; [reflexivity|];
          apply (in_order_In _ _ Hord); now apply in_map ]).
Qed.

(** X5: when the script cannot be read or the client cannot be made, the
    run sends no request and writes no output; a missing or blank script
    ends it with status 1. *)
Theorem main_stops_before_synthesis :
  raises (read_script fs script_path) = true \/ raises boto3_client = true ->
  requests (main polly script_path boto3_client write_output fs) = []
  /\ written (main polly script_path boto3_client write_output fs) = None
  /\ (fs script_path = Missing
      \/ (exists script, fs script_path = Content script
                         /\ blank script = true) ->
      exit_status (main polly script_path boto3_client write_output fs) = 1%Z).
Proof.
  intros H. unfold main.
  destruct (read_script fs script_path) as [script | e] eqn:R.
  - destruct H as [H | H]; [discriminate|].
    destruct boto3_client as [client | e]; [discriminate|].
    repeat split. intros Hs. exfalso. revert R.
    unfold read_script, open_read, exists_, blank in *.
    destruct Hs as [-> | (s & -> & Hb)]; cbn [negb]; [discriminate|].
    now rewrite Hb.
  - repeat split. intros Hs. revert R. cbn [exit_status].
    unfold read_script, open_read, exists_, blank in *.
    destruct Hs as [-> | (s & -> & Hb)]; cbn [negb].
    + now intros [= <-].
    + rewrite Hb. now intros [= <-].
Qed.

(** The requests of a run follow a prefix of the segments of the script in
    their order, each segment being sent once or twice. *)
Lemma main_requests_in_order (script : str) :
  fs script_path = Content script ->
  in_order (split_for_polly script 3000)
           (map Text (requests
                        (main polly script_path boto3_client write_output fs)))
  /\ length (requests (main polly script_path boto3_client write_output fs))
     <= 2 * length (split_for_polly script 3000).
Proof.
  intros Hfs.
  assert (H : in_order (split_for_polly script 3000)
                (map Text (requests
                   (main polly script_path boto3_client write_output fs)))).
  { unfold main, read_script, open_read, exists_. rewrite Hfs. cbn [negb].
    destruct (negb (truthy (strip script))); [constructor|].
    destruct boto3_client as [client | e]; [|constructor].
    destruct (synthesize_segments_spec (detect_ssml script)
                (split_for_polly script 3000) [] client [])
      as (new & Hlog & Hord & _).
    destruct (synthesize_segments polly _ _ _ _) as [[out | e] [sv log]];
      cbn [snd app] in Hlog; subst log;
      [destruct (write_output _)|]; exact Hord. }
  split; [exact H|].
  apply in_order_length in H. now rewrite length_map in H.
Qed.







(** With a service that answers every request with the audio [audio_of]
    gives for its text, the loop asks the neural engine once for each
    segment and collects the audio in the order of the segments. *)
Lemma synthesize_segments_all_ok
      (audio_of : str -> bytes) (is_ssml : bool) (segments : list str) :
  (forall r sv, fst (polly r sv) = Ok (Some (Ok (audio_of (Text r))))) ->
  forall (audio : list bytes) (sv : service) (log : list request),
  exists sv',
    synthesize_segments polly segments is_ssml audio (sv, log)
    = (Ok (audio ++ map audio_of segments),
       (sv', log ++ map (fun segment =>
                           synthesis_request
                             (lit "neural") segment
                             (if is_ssml then lit "ssml" else lit "text"))
                        segments)).
Proof.
  intros Hsvc.
  induction segments as [|segment rest IH]; intros audio sv log.
  - exists sv. cbn. now rewrite !app_nil_r.
  - cbn [synthesize_segments]. unfold bind, try_except.
    rewrite synthesize_speech_run. cbv zeta. rewrite Hsvc.
    cbn [audio_of_response Text synthesis_request].
    destruct (IH (audio ++ [audio_of segment])
                 (snd (polly (synthesis_request (lit "neural") segment
                                (if is_ssml then lit "ssml" else lit "text"))
                             sv))
                 (log ++ [synthesis_request (lit "neural") segment
                            (if is_ssml then lit "ssml" else lit "text")]))
      as (sv' & ->).
    exists sv'. cbn [map]. now rewrite <- !app_assoc.
Qed.

(** X8: when the script is read, the client is made, every request is
    answered with audio and the output can be written, the run ends with
    status 0 after one neural request for each segment, in order, and the
    output is the audio of the segments in that same order. *)
Theorem main_end_to_end
        (audio_of : str -> bytes) (script : str) (client : service) :
  (forall r sv, fst (polly r sv) = Ok (Some (Ok (audio_of (Text r))))) ->
  fs script_path = Content script ->
  blank script = false ->
  boto3_client = Ok client ->
  (forall b, write_output b = Written) ->
  main polly script_path boto3_client write_output fs
  = {| exit_status := 0;
       requests :=
         map (fun segment =>
                synthesis_request
                  (lit "neural") segment
                  (if detect_ssml script then lit "ssml" else lit "text"))
             (split_for_polly script 3000);
       written :=
         Some (concatenate_audio
                 (map audio_of (split_for_polly script 3000))) |}.
Proof.
  intros Hsvc Hfs Hb Hcl Hw.
  unfold main, read_script, open_read, exists_. rewrite Hfs. cbn [negb].
  unfold blank in Hb. rewrite Hb, Hcl.
  destruct (synthesize_segments_all_ok audio_of (detect_ssml script)
              (split_for_polly script 3000) Hsvc [] client [])
    as (sv' & ->).
  cbn [app]. now rewrite Hw.
Qed.

End MainProperties.

Lemma main_stops_before_synthesis_witness :
  requests (main one_byte_service (lit "demo_script.txt") (Ok tt)
                 (fun _ => Written) (fun _ => Missing)) = []
  /\ written (main one_byte_service (lit "demo_script.txt") (Ok tt)
                   (fun _ => Written) (fun _ => Missing)) = None
  /\ exit_status (main one_byte_service (lit "demo_script.txt") (Ok tt)
                       (fun _ => Written) (fun _ => Missing)) = 1%Z.
Proof.
  destruct (main_stops_before_synthesis unit one_byte_service
              (lit "demo_script.txt") (Ok tt) (fun _ => Written)
              (fun _ => Missing)) as (H1 & H2 & H3).
  - left. reflexivity.
  - split; [exact H1 | split; [exact H2 | apply H3; now left]].
Defined.



Lemma main_end_to_end_witness :
  main one_byte_service (lit "demo_script.txt") (Ok tt) (fun _ => Written)
       (fun _ => Content (lit "<speak>hello</speak>"))
  = {| exit_status := 0;
       requests := [synthesis_request (lit "neural")
                      (lit "<speak>hello</speak>") (lit "ssml")];
       written := Some [Byte.x00] |}.
Proof.
  rewrite (main_end_to_end unit one_byte_service (lit "demo_script.txt")
             (Ok tt) (fun _ => Written)
             (fun _ => Content (lit "<speak>hello</speak>"))
             (fun _ => [Byte.x00]) (lit "<speak>hello</speak>") tt);
    try reflexivity.
Defined.

(** ** [split_for_polly]: the limit and the greedy cut *)

(** X9: when the joined content is not blank and every block of the split
    at [</prosody>] that is not blank fits in a segment by itself, every
    string returned by [split_for_polly] is no longer than [max_chars]. *)
Theorem split_for_polly_within_limit (text : str) (max_chars : Z) :
  blank (combined_content text) = false ->
  Forall (fun block =>
            blank block = true \/ (len (speak block) <= max_chars)%Z)
         (full_blocks (re_split prosody_pattern (combined_content text))) ->
  Forall (fun segment => (len segment <= max_chars)%Z)
         (split_for_polly text max_chars).
Proof.
  intros Hcontent Hblocks.
  destruct (split_for_polly_cases text max_chars)
    as [[L E] | [(_ & S & _) | (_ & _ & E)]].
  - rewrite E. now repeat constructor.
  - exfalso.
    destruct (split_segments_spec max_chars (combined_content text))
      as (cs & tail & Hs & Hcat & Htail & _).
    rewrite S in Hs. destruct cs; [|discriminate].
    cbn in Hcat. congruence.
  - destruct (split_segments_spec max_chars (combined_content text))
      as (cs & tail & Hs & _ & _ & Hnb & Hfit).
    rewrite E, Hs. apply Forall_forall. intros segment Hin.
    apply in_map_iff in Hin as (c & <- & Hc).
    rewrite Forall_forall in Hnb, Hfit, Hblocks.
    destruct (Hfit c Hc) as [H | H]; [exact H|].
    destruct (Hblocks c H) as [B | B]; [|exact B].
    rewrite (Hnb c Hc) in B. discriminate.
Qed.

Lemma split_for_polly_within_limit_witness :
  Forall (fun segment => (len segment <= 40)%Z)
         (split_for_polly nested_script 40).
Proof.
  apply (split_for_polly_within_limit nested_script 40).
  - vm_compute. reflexivity.
  - apply Forall_forall. intros block Hb.
    assert (F : forallb (fun b => blank b || (len (speak b) <=? 40)%Z)
                  (full_blocks
                     (re_split prosody_pattern (combined_content nested_script)))
                = true) by (vm_compute; reflexivity).
    rewrite forallb_forall in F. specialize (F block Hb).
    apply orb_true_iff in F as [F | F]; [now left | right; now apply Z.leb_le].
Defined.

Lemma overflows_mono (max_chars : Z) (seen more : list str) (c d : str) :
  overflows max_chars seen c d -> overflows max_chars (seen ++ more) c d.
Proof.
  intros (b & r & E & Hin & Hb & Hl). exists b, r. repeat split; auto.
  apply in_or_app. now left.
Qed.

Lemma greedy_mono (max_chars : Z) (seen more : list str) (cs : list str) :
  greedy max_chars seen cs -> greedy max_chars (seen ++ more) cs.
Proof.
  induction cs as [|c [|d cs] IH]; cbn; auto.
  intros [H1 H2]. split; [now apply overflows_mono | now apply IH].
Qed.

(** The last content may grow. *)
Lemma greedy_extend (max_chars : Z) (blocks : list str)
      (cs : list str) (d e : str) :
  greedy max_chars blocks (cs ++ [d]) -> greedy max_chars blocks (cs ++ [d ++ e]).
Proof.
  induction cs as [|c [|c' cs] IH]; cbn; auto.
  - intros [(b & r & -> & H) _]. split; [|auto].
    exists b, (r ++ e). split; [now rewrite app_assoc | exact H].
  - intros [H1 H2]. split; [exact H1 | now apply IH].
Qed.

(** A new content may follow the last one it did not fit after. *)
Lemma greedy_snoc (max_chars : Z) (blocks : list str)
      (cs : list str) (c d : str) :
  greedy max_chars blocks (cs ++ [c]) ->
  overflows max_chars blocks c d ->
  greedy max_chars blocks ((cs ++ [c]) ++ [d]).
Proof.
  intros H Ho. induction cs as [|a [|a' cs] IH]; cbn in *; auto.
  - destruct H as [H1 H2]. auto.
  - destruct H as [H1 H2]. split; [exact H1 | now apply IH].
Qed.

Lemma greedy_removelast (max_chars : Z) (blocks : list str)
      (cs : list str) (d : str) :
  greedy max_chars blocks (cs ++ [d]) -> greedy max_chars blocks cs.
Proof.
  induction cs as [|c [|c' cs] IH]; cbn; auto.
  intros [H1 H2]. split; [exact H1 | now apply IH].
Qed.

Lemma greedy_adjacent (max_chars : Z) (blocks : list str)
      (pre : list str) (c d : str) (post : list str) :
  greedy max_chars blocks (pre ++ c :: d :: post) ->
  overflows max_chars blocks c d.
Proof.
  induction pre as [|a pre IH]; cbn.
  - tauto.
  - intros [_ H]. now apply IH.
Qed.

Lemma greedy_inv_step (max_chars : Z) (seen : list str) (full_block : str)
      (st : list str * str) :
  greedy_inv max_chars seen st ->
  greedy_inv max_chars (seen ++ [full_block])
             (split_step max_chars full_block st).
Proof.
  destruct st as [segments current]. intros (cs & Hsegs & Hg).
  cbn [fst snd] in Hsegs, Hg.
  apply (greedy_mono _ _ [full_block]) in Hg.
  unfold split_step. fold (blank full_block).
  destruct (blank full_block) eqn:B; [now exists cs|].
  destruct (truthy current && (len (speak (current ++ full_block)) >? max_chars)%Z)
    eqn:G.
  - apply andb_true_iff in G as [_ G]. apply Z.gtb_lt in G.
    exists (cs ++ [current]). cbn [fst snd]. split.
    + now rewrite Hsegs, map_app.
    + apply greedy_snoc; [exact Hg|].
      exists full_block, []. rewrite app_nil_r. repeat split; auto.
      * apply in_or_app. right. now left.
      * lia.
  - exists cs. cbn [fst snd]. split; [exact Hsegs|].
    now apply greedy_extend.
Qed.

Lemma greedy_inv_fold (max_chars : Z) (bs : list str) :
  forall seen st,
    greedy_inv max_chars seen st ->
    greedy_inv max_chars (seen ++ bs)
               (fold_left
                  (fun st full_block => split_step max_chars full_block st)
                  bs st).
Proof.
  induction bs as [|b bs IH]; intros seen st H; simpl.
  - now rewrite app_nil_r.
  - change (b :: bs) with ([b] ++ bs). rewrite app_assoc.
    apply IH, greedy_inv_step, H.
Qed.

Lemma split_segments_greedy (max_chars : Z) (content : str) :
  exists cs,
    split_segments max_chars content = map speak cs
    /\ greedy max_chars (full_blocks (re_split prosody_pattern content)) cs.
Proof.
  unfold split_segments. rewrite split_loop_fold.
  pose proof (greedy_inv_fold max_chars
                (full_blocks (re_split prosody_pattern content)) [] ([], []))
    as H.
  cbn [app] in H.
  destruct (fold_left _ _ _) as [segments current].
  destruct H as (cs & Hsegs & Hg).
  { exists []. cbn. auto. }
  cbn [fst snd] in Hsegs, Hg. subst segments.
  destruct (truthy (strip current)).
  - exists (cs ++ [current]). split; [now rewrite map_app | exact Hg].
  - exists cs. split; [reflexivity | eapply greedy_removelast, Hg].
Qed.

(** X10: the cut is greedy: of two segments that follow one another, the
    second opens with a block of the split at [</prosody>], not blank,
    which appended to the content of the first would have made a segment
    longer than [max_chars]. *)
Theorem split_for_polly_greedy
        (text : str) (max_chars : Z) (pre : list str) (c d : str)
        (post : list str) :
  map unwrap (split_for_polly text max_chars) = pre ++ c :: d :: post ->
  exists block rest,
    d = block ++ rest
    /\ In block (full_blocks (re_split prosody_pattern (combined_content text)))
    /\ blank block = false
    /\ (len (speak (c ++ block)) > max_chars)%Z.
Proof.
  intros H.
  destruct (split_for_polly_cases text max_chars)
    as [[_ E] | [(_ & _ & E) | (_ & _ & E)]]; rewrite E in H.
  - apply (f_equal (@length str)) in H. rewrite length_app in H.
    cbn in H. lia.
  - apply (f_equal (@length str)) in H. rewrite length_app in H.
    cbn in H. lia.
  - destruct (split_segments_greedy max_chars (combined_content text))
      as (cs & Hs & Hg).
    rewrite Hs, map_unwrap_speak in H. subst cs.
    exact (greedy_adjacent _ _ _ _ _ _ Hg).
Qed.

Lemma split_for_polly_greedy_witness :
  exists block rest,
    lit "<prosody>b</prosody>" = block ++ rest
    /\ In block (full_blocks
                   (re_split prosody_pattern (combined_content nested_script)))
    /\ blank block = false
    /\ (len (speak (lit "<p><prosody>a</prosody>" ++ block)) > 40)%Z.
Proof.
  apply (split_for_polly_greedy nested_script 40 []
           (lit "<p><prosody>a</prosody>") (lit "<prosody>b</prosody>")
           [lit "</p><prosody>c</prosody>"]).
  vm_compute. reflexivity.
Defined.

(** ** Markers, blocks and the text outside *)

Lemma finditer_match_gen (m : matcher) (s : str) (n : nat) :
  m s = Some n -> 0 < n -> s <> [] ->
  finditer m 0 s = Mat (firstn n s) :: finditer m 0 (skipn n s).
Proof.
  destruct s as [|c s]; [congruence|]. destruct n as [|n]; [lia|].
  intros H _ _. now apply finditer_match.
Qed.

Lemma skipn_app_plus {A : Type} (p rest : list A) (k : nat) :
  skipn (length p + k) (p ++ rest) = skipn k rest.
Proof.
  induction p as [|a p IH]; [reflexivity | exact IH].
Qed.

Lemma skipn_length_app {A : Type} (p rest : list A) :
  skipn (length p) (p ++ rest) = rest.
Proof.
  induction p as [|a p IH]; [reflexivity | exact IH].
Qed.

Lemma firstn_app_plus {A : Type} (p rest : list A) (k : nat) :
  firstn (length p + k) (p ++ rest) = p ++ firstn k rest.
Proof.
  induction p as [|a p IH]; [reflexivity | cbn; now rewrite IH].
Qed.

Lemma not_existsb (x : char) (l : str) :
  existsb (N.eqb x) l = false -> ~ In x l.
Proof.
  intros H Hin. assert (E : existsb (N.eqb x) l = true).
  { apply existsb_exists. exists x. split; [exact Hin | apply N.eqb_refl]. }
  congruence.
Qed.

Lemma span_name (name rest : str) :
  ~ In RBRACKET name ->
  span_not_rbracket (name ++ RBRACKET :: rest) = length name.
Proof.
  induction name as [|c name IH]; intros H; [reflexivity|].
  cbn. destruct (N.eqb_spec c RBRACKET) as [-> | _].
  - destruct H. now left.
  - f_equal. apply IH. intros Hin. apply H. now right.
Qed.

(** The match of the marker pattern at a marker. *)
Lemma section_pattern_marker (name rest : str) :
  name <> [] -> ~ In RBRACKET name ->
  section_pattern (SECTION_OPEN ++ name ++ RBRACKET :: rest)
  = Some (length (SECTION_OPEN ++ name ++ [RBRACKET])
          + (if startswith [LF] rest then 1 else 0)).
Proof.
  intros Hname Hno. unfold section_pattern. cbv zeta.
  rewrite startswith_app, skipn_length_app, (span_name _ _ Hno).
  destruct name as [|c name]; [congruence|].
  cbn [length]. change (S (length name)) with (length (c :: name)).
  rewrite skipn_length_app.
  f_equal. rewrite !length_app. cbn [length]. lia.
Qed.

(** The text without markers of what starts with a marker. *)
Lemma sub_marker (name r : str) :
  name <> [] -> ~ In RBRACKET name ->
  re_sub_empty section_pattern (SECTION_OPEN ++ name ++ RBRACKET :: r)
  = re_sub_empty section_pattern
      (skipn (if startswith [LF] r then 1 else 0) r).
Proof.
  intros Hname Hno. unfold re_sub_empty.
  rewrite (finditer_match_gen _ _ _ (section_pattern_marker _ r Hname Hno)).
  - cbn [flat_map app].
    replace (SECTION_OPEN ++ name ++ RBRACKET :: r)
      with ((SECTION_OPEN ++ name ++ [RBRACKET]) ++ r)
      by (rewrite <- !app_assoc; reflexivity).
    rewrite skipn_app_plus. reflexivity.
  - rewrite !length_app. cbn [length]. lia.
  - discriminate.
Qed.

(** X11: a marker whose name is not empty and has no closing bracket is
    removed with the newline that follows it, and with nothing else: the text
    without markers of what starts with the marker is that of what comes
    after the marker and one newline, if there is one. *)
Theorem marker_removed (name rest : str) :
  name <> [] -> ~ In RBRACKET name ->
  text_without_markers (SECTION_OPEN ++ name ++ RBRACKET :: LF :: rest)
  = text_without_markers rest
  /\ (startswith [LF] rest = false ->
      text_without_markers (SECTION_OPEN ++ name ++ RBRACKET :: rest)
      = text_without_markers rest).
Proof.
  intros Hname Hno. unfold text_without_markers. split.
  - rewrite (sub_marker _ _ Hname Hno). reflexivity.
  - intros Hr. rewrite (sub_marker _ _ Hname Hno), Hr. reflexivity.
Qed.

Lemma marker_removed_witness :
  text_without_markers (SECTION_OPEN ++ lit "Intro" ++ RBRACKET :: LF
                                     :: lit "<speak>a</speak>")
  = text_without_markers (lit "<speak>a</speak>").
Proof.
  destruct (marker_removed (lit "Intro") (lit "<speak>a</speak>")) as [H _].
  - discriminate.
  - intros H. repeat (destruct H as [H | H]; [discriminate|]). exact H.
  - exact H.
Defined.

(** Text without an opening bracket is left as it is. *)
Lemma sub_outside (s rest : str) :
  ~ In LBRACKET s ->
  re_sub_empty section_pattern (s ++ rest)
  = s ++ re_sub_empty section_pattern rest.
Proof.
  induction s as [|c s IH]; intros H; [reflexivity|].
  cbn [app]. unfold re_sub_empty. rewrite finditer_pass.
  - cbn [flat_map app]. f_equal. apply IH. intros Hin. apply H. now right.
  - left. unfold section_pattern.
    change (startswith SECTION_OPEN (c :: s ++ rest))
      with (N.eqb LBRACKET c && startswith (lit "SECTION: ") (s ++ rest)).
    destruct (N.eqb_spec LBRACKET c) as [<- | _]; [|reflexivity].
    destruct H. now left.
Qed.

(** Text without a [<] holds no block. *)
Lemma findall_outside (s rest : str) :
  ~ In LT s ->
  re_findall speak_pattern speak_group (s ++ rest)
  = re_findall speak_pattern speak_group rest.
Proof.
  induction s as [|c s IH]; intros H; [reflexivity|].
  cbn [app]. rewrite findall_pass.
  - apply IH. intros Hin. apply H. now right.
  - unfold speak_pattern.
    change (startswith SPEAK_OPEN (c :: s ++ rest))
      with (N.eqb LT c && startswith (lit "speak>") (s ++ rest)).
    destruct (N.eqb_spec LT c) as [<- | _]; [|reflexivity].
    destruct H. now left.
Qed.

(** A closing tag cannot begin in a text and end in the closing tag that
    follows the text. *)
Lemma close_no_straddle (s rest : str) :
  s <> [] ->
  startswith SPEAK_CLOSE (s ++ SPEAK_CLOSE ++ rest) = true ->
  startswith SPEAK_CLOSE s = true.
Proof.
  intros Hs.
  destruct s as [|a0 [|a1 [|a2 [|a3 [|a4 [|a5 [|a6 [|a7 s]]]]]]]];
    [congruence | | | | | | | | ]; cbn; intros H; try exact H;
    exfalso; revert H; rewrite ?andb_false_r; discriminate.
Qed.

Lemma find_head (p s : str) : startswith p s = true -> find p s = Some 0.
Proof. intros H. destruct s; cbn [find]; now rewrite H. Qed.

Lemma find_close (g rest : str) :
  contains SPEAK_CLOSE g = false ->
  find SPEAK_CLOSE (g ++ SPEAK_CLOSE ++ rest) = Some (length g).
Proof.
  induction g as [|c g IH]; intros H.
  - cbn [app length]. apply find_head, startswith_app.
  - cbn [app find length].
    destruct (startswith SPEAK_CLOSE (c :: g ++ SPEAK_CLOSE ++ rest)) eqn:E.
    + apply (close_no_straddle (c :: g) rest) in E; [|discriminate].
      apply contains_false_head in H. congruence.
    + rewrite IH; [reflexivity|].
      apply (contains_false_suffix _ [c] g H).
Qed.

(** A block whose content has no closing tag is found whole. *)
Lemma findall_block (g rest : str) :
  contains SPEAK_CLOSE g = false ->
  re_findall speak_pattern speak_group (speak g ++ rest)
  = g :: re_findall speak_pattern speak_group rest.
Proof.
  intros H.
  assert (P : speak_pattern (speak g ++ rest) = Some (length (speak g) + 0)).
  { unfold speak_pattern, speak. rewrite <- !app_assoc.
    rewrite startswith_app, skipn_length_app, (find_close _ _ H).
    f_equal. rewrite !length_app.
    change (length SPEAK_OPEN) with 7. change (length SPEAK_CLOSE) with 8.
    lia. }
  unfold re_findall. rewrite (finditer_match_gen _ _ _ P).
  - rewrite firstn_app_plus, skipn_app_plus. cbn [firstn skipn flat_map app].
    rewrite app_nil_r. change (speak_group (speak g)) with (unwrap (speak g)).
    now rewrite unwrap_speak.
  - unfold speak. rewrite !length_app. change (length SPEAK_OPEN) with 7.
    lia.
  - discriminate.
Qed.

Lemma sub_render (items : list script_item) :
  forallb item_ok items = true ->
  re_sub_empty section_pattern (render items) = render_visible items.
Proof.
  induction items as [|i items IH]; [reflexivity|].
  cbn [forallb]. intros H. apply andb_true_iff in H as [Hi H].
  specialize (IH H). unfold render in *. cbn [flat_map render_visible].
  destruct i as [name | t | g]; cbn [item_ok render_item] in *.
  - apply andb_true_iff in Hi as [Hn Hb]. apply negb_true_iff in Hb.
    rewrite <- !app_assoc. cbn [app].
    rewrite sub_marker.
    + exact IH.
    + destruct name; [discriminate | congruence].
    + now apply not_existsb.
  - apply andb_true_iff in Hi as [Hb _]. apply negb_true_iff in Hb.
    rewrite sub_outside by now apply not_existsb.
    now rewrite IH.
  - apply andb_true_iff in Hi as [Hb _]. apply negb_true_iff in Hb.
    rewrite sub_outside; [now rewrite IH|].
    unfold speak. intros Hin.
    apply in_app_or in Hin as [Hin | Hin];
      [vm_compute in Hin; intuition discriminate|].
    apply in_app_or in Hin as [Hin | Hin];
      [now apply (not_existsb _ _ Hb)
      | vm_compute in Hin; intuition discriminate].
Qed.

Lemma findall_render_visible (items : list script_item) :
  forallb item_ok items = true ->
  re_findall speak_pattern speak_group (render_visible items)
  = blocks_of items.
Proof.
  induction items as [|i items IH]; [reflexivity|].
  cbn [forallb]. intros H. apply andb_true_iff in H as [Hi H].
  specialize (IH H). unfold render_visible, blocks_of in *.
  cbn [flat_map].
  destruct i as [name | t | g]; cbn [item_ok render_item app] in *.
  - exact IH.
  - apply andb_true_iff in Hi as [_ Hl]. apply negb_true_iff in Hl.
    rewrite findall_outside by now apply not_existsb. exact IH.
  - apply andb_true_iff in Hi as [_ Hc]. apply negb_true_iff in Hc.
    rewrite (findall_block _ _ Hc). now rewrite IH.
Qed.

(** X12: for a script made of marker lines, [<speak>] blocks and text
    outside of them - marker names without a closing bracket, no opening
    bracket elsewhere, no [<] outside the blocks, no [</speak>] inside a
    content - the joined content is the contents of the blocks in the order
    of the script, joined by newlines; and when this fits, wrapped, in
    [max_chars], it is the single segment returned. *)
Theorem split_for_polly_script (items : list script_item) (max_chars : Z) :
  forallb item_ok items = true ->
  combined_content (render items) = join [LF] (blocks_of items)
  /\ ((len (speak (join [LF] (blocks_of items))) <= max_chars)%Z ->
      split_for_polly (render items) max_chars
      = [speak (join [LF] (blocks_of items))]).
Proof.
  intros H.
  assert (E : combined_content (render items) = join [LF] (blocks_of items)).
  { unfold combined_content, speak_contents, text_without_markers.
    now rewrite (sub_render _ H), (findall_render_visible _ H). }
  split; [exact E|].
  intros L.
  destruct (split_for_polly_cases (render items) max_chars)
    as [[_ R] | [(G & _) | (G & _)]];
    unfold full_ssml in *; rewrite E in *; [exact R | lia | lia].
Qed.

Lemma split_for_polly_script_witness :
  combined_content
    (render [Marker (lit "Intro"); Block (lit "a"); Outside [LF];
             Marker (lit "Demo"); Block (lit "b")])
  = lit "a" ++ [LF] ++ lit "b".
Proof.
  apply (split_for_polly_script
           [Marker (lit "Intro"); Block (lit "a"); Outside [LF];
            Marker (lit "Demo"); Block (lit "b")] 3000).
  reflexivity.
Defined.

(** ** [concatenate_audio]: empty chunks *)

(** X13: [concatenate_audio] returns the empty bytes exactly when every
    chunk is empty, in particular for no chunk at all. *)
Theorem concatenate_audio_empty (segments : list bytes) :
  concatenate_audio segments = [] <-> Forall (fun chunk => chunk = []) segments.
Proof.
  unfold concatenate_audio.
  induction segments as [|c segments IH]; cbn.
  - split; [constructor | reflexivity].
  - split.
    + intros H. apply app_eq_nil in H as [-> H]. constructor; [reflexivity|].
      now apply IH.
    + intros H. inversion H as [|? ? -> H']. cbn. now apply IH.
Qed.

(** ** The segments as groups of blocks *)

Lemma startswith_app_r (p a b : str) :
  startswith p a = true -> startswith p (a ++ b) = true.
Proof.
  intros H. destruct (startswith_inv _ _ H) as [r ->].
  rewrite <- app_assoc. apply startswith_app.
Qed.

(** The content is a row of blocks, each ending at the one [</prosody>] it
    holds, and a rest without any; these are the full blocks of the loop. *)
Lemma prosody_blocks_structure (content : str) :
  exists gs rest,
    full_blocks (re_split prosody_pattern content)
    = map (fun g => g ++ PROSODY_CLOSE) gs ++ [rest]
    /\ Forall (fun g => contains PROSODY_CLOSE g = false) gs
    /\ contains PROSODY_CLOSE rest = false
    /\ content = concat (map (fun g => g ++ PROSODY_CLOSE) gs) ++ rest.
Proof.
  induction content as [|c s Hm IH|c s n Hm IH] using (scan_ind prosody_pattern).
  - exists [], []. repeat split. constructor.
  - destruct IH as (gs & rest & E & Hgs & Hrest & Hs).
    assert (Hc : startswith PROSODY_CLOSE (c :: s) = false).
    { unfold prosody_pattern in Hm.
      destruct (startswith PROSODY_CLOSE (c :: s)); [|reflexivity].
      destruct Hm; discriminate. }
    unfold re_split in *. rewrite (finditer_pass _ _ _ Hm), full_blocks_Chr, E.
    destruct gs as [|g gs]; cbn [map app concat] in *.
    + exists [], (c :: rest). subst s. repeat split; [constructor|].
      cbn [contains]. now rewrite Hc, Hrest.
    + exists ((c :: g) :: gs), rest. inversion Hgs as [|? ? Hg Hgs']; subst.
      repeat split.
      * constructor; [|exact Hgs']. cbn [contains]. rewrite Hg.
        destruct (startswith PROSODY_CLOSE (c :: g)) eqn:S; [|reflexivity].
        apply (startswith_app_r _ _
                 (PROSODY_CLOSE
                  ++ concat (map (fun g => g ++ PROSODY_CLOSE) gs) ++ rest))
          in S.
        rewrite <- !app_assoc in Hc. cbn [app] in S. congruence.
      * exact Hrest.
  - destruct IH as (gs & rest & E & Hgs & Hrest & Hs).
    assert (Hc : startswith PROSODY_CLOSE (c :: s) = true /\ S n = 10).
    { unfold prosody_pattern in Hm.
      destruct (startswith PROSODY_CLOSE (c :: s)); [|discriminate].
      injection Hm as Hn. split; [reflexivity | now rewrite <- Hn]. }
    destruct Hc as [Hc Hn]. injection Hn as ->.
    destruct (startswith_inv _ _ Hc) as [r Hr].
    unfold re_split in *. rewrite (finditer_match _ _ _ _ Hm).
    rewrite Hr in *.
    change 10 with (length PROSODY_CLOSE) in *.
    rewrite skipn_length_app in *.
    rewrite <- (Nat.add_0_r (length PROSODY_CLOSE)), firstn_app_plus.
    cbn [firstn split_tokens full_blocks app]. rewrite app_nil_r, E.
    exists ([] :: gs), rest. cbn [map app concat]. repeat split.
    + constructor; [reflexivity | exact Hgs].
    + exact Hrest.
    + rewrite <- !app_assoc. f_equal. exact Hs.
Qed.

Lemma kept_nonblank (bs : list str) :
  Forall (fun b => blank b = false) (kept bs).
Proof.
  apply Forall_forall. intros b Hb. apply filter_In in Hb as [_ Hb].
  now apply negb_true_iff in Hb.
Qed.

Lemma nonblank_concat (l : list str) :
  Forall (fun b => blank b = false) l -> l <> [] -> blank (concat l) = false.
Proof.
  intros H Hl. destruct l as [|b l]; [congruence|].
  inversion H as [|? ? Hb _]; subst. cbn [concat].
  rewrite blank_app, Hb. reflexivity.
Qed.

Lemma group_inv_step (max_chars : Z) (seen : list str) (full_block : str)
      (st : list str * str) :
  group_inv seen st ->
  group_inv (seen ++ [full_block]) (split_step max_chars full_block st).
Proof.
  destruct st as [segments current].
  intros (groups & cur & Hsegs & Hcur & Hcat & Hnb).
  cbn [fst snd] in Hsegs, Hcur.
  unfold split_step. fold (blank full_block).
  unfold group_inv. rewrite kept_app. cbn [kept filter].
  destruct (blank full_block) eqn:B; cbn [negb].
  - exists groups, cur. rewrite app_nil_r. auto.
  - assert (Hk : Forall (fun b => blank b = false) cur).
    { pose proof (kept_nonblank seen) as K. rewrite <- Hcat in K.
      now apply Forall_app in K. }
    destruct (truthy current
              && (len (speak (current ++ full_block)) >? max_chars)%Z) eqn:G.
    + apply andb_true_iff in G as [T _].
      exists (groups ++ [cur]), [full_block]. cbn [fst snd]. repeat split.
      * now rewrite Hsegs, map_app, Hcur.
      * cbn [concat]. symmetry. apply app_nil_r.
      * rewrite concat_app. cbn [concat]. rewrite app_nil_r, <- Hcat.
        reflexivity.
      * apply Forall_app. split; [exact Hnb|]. constructor; [|constructor].
        apply nonblank_concat; [exact Hk|]. intros ->. subst current.
        discriminate.
    + exists groups, (cur ++ [full_block]). cbn [fst snd]. repeat split.
      * exact Hsegs.
      * rewrite concat_app, Hcur. cbn. now rewrite app_nil_r.
      * now rewrite <- Hcat, app_assoc.
      * exact Hnb.
Qed.

Lemma group_inv_fold (max_chars : Z) (bs : list str) :
  forall seen st,
    group_inv seen st ->
    group_inv (seen ++ bs)
              (fold_left
                 (fun st full_block => split_step max_chars full_block st)
                 bs st).
Proof.
  induction bs as [|b bs IH]; intros seen st H; simpl.
  - now rewrite app_nil_r.
  - change (b :: bs) with ([b] ++ bs). rewrite app_assoc.
    apply IH, group_inv_step, H.
Qed.

(** What the splitting path returns: the blocks that are not blank, in
    groups of blocks that follow one another, each group wrapped. *)
Lemma split_segments_groups (max_chars : Z) (content : str) :
  exists groups,
    split_segments max_chars content
    = map (fun group => speak (concat group)) groups
    /\ concat groups = kept (full_blocks (re_split prosody_pattern content))
    /\ Forall (fun group => blank (concat group) = false) groups.
Proof.
  unfold split_segments. rewrite split_loop_fold.
  pose proof (group_inv_fold max_chars
                (full_blocks (re_split prosody_pattern content)) [] ([], []))
    as H.
  cbn [app] in H.
  destruct (fold_left _ _ _) as [segments current].
  destruct H as (groups & cur & Hsegs & Hcur & Hcat & Hnb).
  { exists [], []. cbn. auto. }
  cbn [fst snd] in Hsegs, Hcur. subst segments.
  assert (Hk : Forall (fun b => blank b = false) cur).
  { pose proof (kept_nonblank
                  (full_blocks (re_split prosody_pattern content))) as K.
    rewrite <- Hcat in K. now apply Forall_app in K. }
  rewrite truthy_strip.
  destruct (blank current) eqn:B; cbn [negb].
  - exists groups. repeat split; [|exact Hnb].
    destruct cur as [|b cur]; [now rewrite app_nil_r in Hcat|].
    rewrite Hcur, (nonblank_concat _ Hk) in B; [discriminate | discriminate].
  - exists (groups ++ [cur]). repeat split.
    + now rewrite map_app, Hcur.
    + rewrite concat_app. cbn. now rewrite app_nil_r.
    + apply Forall_app. split; [exact Hnb|]. constructor; [|constructor].
      now rewrite <- Hcur.
Qed.

(** *** Balanced markup *)

Lemma balanced_app (a b : str) : balanced a -> balanced b -> balanced (a ++ b).
Proof.
  unfold balanced. intros Ha Hb. now rewrite fold_left_app, Ha.
Qed.

Lemma balanced_concat (l : list str) : Forall balanced l -> balanced (concat l).
Proof.
  induction 1 as [|b l Hb _ IH]; [reflexivity|].
  cbn [concat]. now apply balanced_app.
Qed.

(** Balanced markup in a [<speak>] element makes a document. *)
Lemma speak_document_balanced (c : str) :
  balanced c -> speak_document (speak c) = true.
Proof.
  unfold balanced, speak_document, well_formed, speak. intros H.
  rewrite startswith_app, !fold_left_app.
  change (fold_left markup_step SPEAK_OPEN markup_init) with speak_inside.
  rewrite H. reflexivity.
Qed.

Lemma concat_map_concat {A : Type} (l : list (list (list A))) :
  concat (map (@concat A) l) = concat (concat l).
Proof.
  induction l as [|x l IH]; [reflexivity|].
  cbn [map concat]. now rewrite concat_app, IH.
Qed.

Lemma map_unwrap_groups (groups : list (list str)) :
  map unwrap (map (fun group => speak (concat group)) groups)
  = map (@concat char) groups.
Proof.
  rewrite map_map. apply map_ext. intros group. apply unwrap_speak.
Qed.

Lemma balanced_groups (groups : list (list str)) (dropped blocks : list str) :
  concat groups ++ dropped = blocks ->
  Forall balanced blocks ->
  Forall (fun group => speak_document (speak (concat group)) = true) groups.
Proof.
  intros E Hb. apply Forall_forall. intros group Hg.
  apply speak_document_balanced, balanced_concat.
  apply Forall_forall. intros b Hin.
  rewrite Forall_forall in Hb. apply Hb. rewrite <- E.
  apply in_or_app. left. apply in_concat. eauto.
Qed.

(** C1, amended: the joined content is a row of blocks, each ending at the
    only [</prosody>] it holds, and a rest that holds none.  The strings
    returned by [split_for_polly] are groups of blocks that follow one
    another, each group wrapped in one [<speak>] element: the groups in order
    make up the blocks, but for the rest, which is dropped when it is blank
    and the content is cut.  So the contents of the segments and what was
    dropped make up the joined content; of several segments none has a blank
    content; and when no element straddles the end of a block - every block
    and the rest are balanced markup - every segment is a well-formed
    document with a single [<speak>] root. *)
Theorem split_for_polly_partition (text : str) (max_chars : Z) :
  exists (gs : list str) (rest : str)
         (groups : list (list str)) (dropped : list str),
    combined_content text
    = concat (map (fun g => g ++ lit "</prosody>") gs) ++ rest
    /\ Forall (fun g => contains (lit "</prosody>") g = false) gs
    /\ contains (lit "</prosody>") rest = false
    /\ split_for_polly text max_chars
       = map (fun group => lit "<speak>" ++ concat group ++ lit "</speak>")
             groups
    /\ concat groups ++ dropped
       = map (fun g => g ++ lit "</prosody>") gs ++ [rest]
    /\ (dropped = [] \/ (dropped = [rest] /\ blank rest = true))
    /\ concat (map unwrap (split_for_polly text max_chars)) ++ concat dropped
       = combined_content text
    /\ (1 < length groups ->
        Forall (fun group => blank (concat group) = false) groups)
    /\ (Forall (fun g => balanced (g ++ lit "</prosody>")) gs ->
        balanced rest ->
        Forall (fun segment => speak_document segment = true)
               (split_for_polly text max_chars)).
Proof.
  destruct (prosody_blocks_structure (combined_content text))
    as (gs & rest & Hblocks & Hgs & Hrest & Hcontent).
  change (lit "</prosody>") with PROSODY_CLOSE.
  change (fun group : list str => lit "<speak>" ++ concat group ++ lit "</speak>")
    with (fun group : list str => speak (concat group)).
  set (blocks := map (fun g => g ++ PROSODY_CLOSE) gs ++ [rest]) in *.
  assert (Hcat : concat blocks = combined_content text).
  { unfold blocks. rewrite concat_app. cbn [concat]. now rewrite app_nil_r. }
  assert (Hbal : Forall (fun g => balanced (g ++ PROSODY_CLOSE)) gs ->
                 balanced rest -> Forall balanced blocks).
  { intros H1 H2. unfold blocks. apply Forall_app. split.
    - apply Forall_forall. intros b Hb.
      apply in_map_iff in Hb as (g & <- & Hg).
      rewrite Forall_forall in H1. now apply H1.
    - now constructor. }
  exists gs, rest.
  assert (Hone : split_for_polly text max_chars = [full_ssml text] ->
          exists groups dropped,
            split_for_polly text max_chars
            = map (fun group => speak (concat group)) groups
            /\ concat groups ++ dropped = blocks
            /\ (dropped = [] \/ (dropped = [rest] /\ blank rest = true))
            /\ (1 < length groups ->
                Forall (fun group => blank (concat group) = false) groups)).
  { intros E. exists [blocks], []. rewrite E. cbn [map concat length].
    rewrite !app_nil_r, Hcat. repeat split; [now left | lia]. }
  assert (Hgroups : exists groups dropped,
            split_for_polly text max_chars
            = map (fun group => speak (concat group)) groups
            /\ concat groups ++ dropped = blocks
            /\ (dropped = [] \/ (dropped = [rest] /\ blank rest = true))
            /\ (1 < length groups ->
                Forall (fun group => blank (concat group) = false) groups)).
  { destruct (split_for_polly_cases text max_chars)
      as [[_ E] | [(_ & _ & E) | (_ & _ & E)]]; [now apply Hone..|].
    destruct (split_segments_groups max_chars (combined_content text))
      as (groups & Hs & Hk & Hnb).
    rewrite Hblocks in Hk. fold blocks in Hk.
    assert (Hkept : kept blocks
                    = map (fun g => g ++ PROSODY_CLOSE) gs
                      ++ (if blank rest then [] else [rest])).
    { unfold blocks. rewrite kept_app. f_equal.
      - apply kept_all. apply Forall_forall. intros b Hb.
        apply in_map_iff in Hb as (g & <- & _).
        rewrite blank_app. apply andb_false_r.
      - cbn. now destruct (blank rest). }
    exists groups, (if blank rest then [rest] else []).
    rewrite E, Hs, Hk, Hkept. repeat split; [| |auto].
    - unfold blocks. rewrite <- app_assoc.
      destruct (blank rest); reflexivity.
    - destruct (blank rest) eqn:B; [right | left]; auto. }
  destruct Hgroups as (groups & dropped & Hsegs & Hparts & Hdrop & Hnb).
  exists groups, dropped. rewrite Hsegs.
  repeat split; try assumption.
  - rewrite map_unwrap_groups, concat_map_concat, <- concat_app, Hparts.
    exact Hcat.
  - intros H1 H2. apply Forall_forall. intros segment Hin.
    apply in_map_iff in Hin as (group & <- & Hg).
    pose proof (balanced_groups groups dropped blocks Hparts (Hbal H1 H2)) as W.
    rewrite Forall_forall in W. now apply W.
Qed.

(** ** Scripts laid out in marker lines, text and blocks *)

Lemma join_newline_separated (l : list str) :
  join [LF] l = newline_separated l.
Proof.
  destruct l as [|x l]; [reflexivity|].
  revert x. induction l as [|y l IH]; intros x.
  - cbn. now rewrite app_nil_r.
  - rewrite join_cons, IH. reflexivity.
Qed.

Lemma contains_char (c : char) (s : str) :
  contains [c] s = false -> ~ In c s.
Proof.
  induction s as [|b s IH]; cbn [contains startswith In]; [tauto|].
  intros H. apply orb_false_iff in H as [H1 H2].
  rewrite andb_true_r in H1. apply N.eqb_neq in H1.
  intros [E | Hin]; [congruence | now apply IH].
Qed.

Lemma words_no_bracket (outside : bool) (ps : list part) :
  forallb (part_ok outside) ps = true -> ~ In LBRACKET (words ps).
Proof.
  induction ps as [|p ps IH]; cbn [forallb words flat_map]; [tauto|].
  intros H. apply andb_true_iff in H as [Hp H]. intros Hin.
  apply in_app_or in Hin as [Hin | Hin]; [|now apply IH].
  destruct p as [t | name]; [|destruct Hin].
  cbn [part_ok] in Hp. apply andb_true_iff in Hp as [Hp _].
  apply negb_true_iff in Hp. now apply (not_existsb _ _ Hp).
Qed.

Lemma words_no_lt (ps : list part) :
  forallb (part_ok true) ps = true -> ~ In LT (words ps).
Proof.
  induction ps as [|p ps IH]; cbn [forallb words flat_map]; [tauto|].
  intros H. apply andb_true_iff in H as [Hp H]. intros Hin.
  apply in_app_or in Hin as [Hin | Hin]; [|now apply IH].
  destruct p as [t | name]; [|destruct Hin].
  cbn [part_ok negb orb] in Hp. apply andb_true_iff in Hp as [_ Hp].
  apply negb_true_iff in Hp. now apply (not_existsb _ _ Hp).
Qed.

(** The removal takes the marker lines of some parts and leaves their
    text. *)
Lemma sub_parts (outside : bool) (ps : list part) (rest : str) :
  forallb (part_ok outside) ps = true ->
  re_sub_empty section_pattern (render_parts ps ++ rest)
  = words ps ++ re_sub_empty section_pattern rest.
Proof.
  unfold render_parts, words.
  induction ps as [|p ps IH]; cbn [forallb flat_map]; [reflexivity|].
  intros H. apply andb_true_iff in H as [Hp H].
  rewrite <- !app_assoc.
  destruct p as [t | name]; cbn [part_ok render_part] in *.
  - apply andb_true_iff in Hp as [Hp _]. apply negb_true_iff in Hp.
    rewrite sub_outside by now apply not_existsb.
    now rewrite IH.
  - apply andb_true_iff in Hp as [Hn Hb]. apply negb_true_iff in Hb.
    change (lit "[SECTION: ") with SECTION_OPEN.
    change (lit "]" ++ [10%N]) with [RBRACKET; LF].
    rewrite <- !app_assoc. cbn [app].
    rewrite sub_marker.
    + cbn [app]. now apply IH.
    + destruct name; [discriminate | congruence].
    + now apply contains_char.
Qed.

Lemma tag_no_bracket (tag : str) :
  existsb (N.eqb LBRACKET) tag = false -> ~ In LBRACKET tag.
Proof. apply not_existsb. Qed.

Lemma sub_layout (items : list layout_item) :
  forallb layout_ok items = true ->
  re_sub_empty section_pattern (render_layout items) = visible items.
Proof.
  unfold render_layout, visible.
  induction items as [|i items IH]; cbn [forallb flat_map]; [reflexivity|].
  intros H. apply andb_true_iff in H as [Hi H]. specialize (IH H).
  rewrite <- IH. clear IH.
  match goal with
  | |- context [re_sub_empty section_pattern (_ ++ ?t)] => generalize t
  end.
  intros tail.
  destruct i as [ps | ps]; cbn [layout_ok] in Hi.
  - now rewrite (sub_parts true _ _ Hi).
  - apply andb_true_iff in Hi as [Hi _].
    change (lit "<speak>") with SPEAK_OPEN.
    change (lit "</speak>") with SPEAK_CLOSE.
    unfold speak. rewrite <- !app_assoc.
    rewrite sub_outside by (apply tag_no_bracket; reflexivity).
    rewrite (sub_parts false _ _ Hi).
    now rewrite sub_outside by (apply tag_no_bracket; reflexivity).
Qed.

Lemma findall_visible (items : list layout_item) :
  forallb layout_ok items = true ->
  re_findall speak_pattern speak_group (visible items) = spoken items.
Proof.
  unfold visible, spoken.
  induction items as [|i items IH]; cbn [forallb flat_map]; [reflexivity|].
  intros H. apply andb_true_iff in H as [Hi H]. specialize (IH H).
  destruct i as [ps | ps]; cbn [layout_ok] in Hi.
  - rewrite findall_outside by now apply words_no_lt. exact IH.
  - apply andb_true_iff in Hi as [_ Hc]. apply negb_true_iff in Hc.
    rewrite (findall_block _ _ Hc). cbn [app]. now rewrite IH.
Qed.

Lemma visible_no_bracket (items : list layout_item) :
  forallb layout_ok items = true -> ~ In LBRACKET (visible items).
Proof.
  unfold visible.
  induction items as [|i items IH]; cbn [forallb flat_map]; [tauto|].
  intros H. apply andb_true_iff in H as [Hi H]. intros Hin.
  apply in_app_or in Hin as [Hin | Hin]; [|now apply IH].
  destruct i as [ps | ps]; cbn [layout_ok] in Hi.
  - now apply (words_no_bracket true ps).
  - apply andb_true_iff in Hi as [Hi _]. unfold speak in Hin.
    apply in_app_or in Hin as [Hin | Hin];
      [revert Hin; apply tag_no_bracket; reflexivity|].
    apply in_app_or in Hin as [Hin | Hin];
      [now apply (words_no_bracket false ps)
      | revert Hin; apply tag_no_bracket; reflexivity].
Qed.

Lemma has_marker_bracket (s : str) : has_marker s -> In LBRACKET s.
Proof.
  intros (pre & body & -> & _). apply in_or_app. right. now left.
Qed.

(** The joined content of a laid-out script: the texts of its blocks, in
    order, one on each line. *)
Lemma combined_content_layout (items : list layout_item) :
  forallb layout_ok items = true ->
  combined_content (render_layout items) = newline_separated (spoken items).
Proof.
  intros H. unfold combined_content, speak_contents, text_without_markers.
  now rewrite (sub_layout _ H), (findall_visible _ H), join_newline_separated.
Qed.

(** C3, as stated, fails: with a [<speak>] block inside another the joined
    content fits, and the one segment returned is not well-formed and has
    lost the text [b] that the outer block holds. *)
Lemma split_for_polly_nested_speak :
  (len (speak (combined_content nested_speak_script)) <= 3000)%Z
  /\ split_for_polly nested_speak_script 3000 = [lit "<speak><speak>a</speak>"]
  /\ speak_document (lit "<speak><speak>a</speak>") = false
  /\ contains (lit "b") nested_speak_script = true
  /\ contains (lit "b") (lit "<speak><speak>a</speak>") = false.
Proof.
  repeat split; try (vm_compute; reflexivity).
  vm_compute. discriminate.
Qed.

(** C3, amended: for a script laid out in text and marker lines, outside
    [<speak>] blocks and inside them - marker names not empty and without a
    closing bracket, no opening bracket in the text, no [<] outside the
    blocks, no [</speak>] in the text of a block - when the texts of the
    blocks, one on each line, wrapped in one [<speak>] element, are no longer
    than [max_chars], [split_for_polly] returns that element as its only
    segment: all the text of the blocks, in the order of the script, the
    marker lines removed. *)
Theorem split_for_polly_single_segment
        (items : list layout_item) (max_chars : Z) :
  forallb layout_ok items = true ->
  (len (lit "<speak>" ++ newline_separated (spoken items) ++ lit "</speak>")
   <= max_chars)%Z ->
  split_for_polly (render_layout items) max_chars
  = [lit "<speak>" ++ newline_separated (spoken items) ++ lit "</speak>"].
Proof.
  intros Hok Hlen.
  pose proof (combined_content_layout items Hok) as E.
  change (lit "<speak>" ++ newline_separated (spoken items) ++ lit "</speak>")
    with (speak (newline_separated (spoken items))) in *.
  destruct (split_for_polly_cases (render_layout items) max_chars)
    as [[_ R] | [(G & _) | (G & _)]];
    unfold full_ssml in *; rewrite E in *; [exact R | lia | lia].
Qed.

(** C3, the example of the specification: the script
    [<speak>hello</speak>] with [max_chars = 3000]. *)
Lemma split_for_polly_hello :
  split_for_polly (lit "<speak>hello</speak>") 3000
  = [lit "<speak>hello</speak>"].
Proof.
  apply (split_for_polly_single_segment [Spoken [Words (lit "hello")]] 3000).
  - reflexivity.
  - vm_compute. discriminate.
Defined.

(** Markers inside a block go as those outside do. *)
Example split_for_polly_marker_in_block :
  split_for_polly
    (render_layout
       [Between [Mark (lit "Intro")];
        Spoken [Mark (lit "Part 1"); Words (lit "a")];
        Between [Words [LF]];
        Spoken [Words (lit "b"); Mark (lit "Part 2"); Words (lit "c")]])
    3000
  = [lit "<speak>a" ++ [LF] ++ lit "bc</speak>"].
Proof. vm_compute. reflexivity. Qed.

(** C6, amended: for a script laid out in text and marker lines, outside
    [<speak>] blocks and inside them, with no opening bracket but those of
    the markers (marker names not empty and without a closing bracket), no
    segment returned by [split_for_polly], whatever [max_chars], holds a
    match of the marker pattern: the markers, those inside the blocks too,
    are removed before the script is cut. *)
Theorem split_for_polly_no_marker
        (items : list layout_item) (max_chars : Z) :
  forallb layout_ok items = true ->
  Forall (fun segment => re_search section_pattern segment = false)
         (split_for_polly (render_layout items) max_chars).
Proof.
  intros Hok. apply split_for_polly_no_new_marker.
  destruct (re_search section_pattern
              (text_without_markers (render_layout items))) eqn:R;
    [|reflexivity].
  apply re_search_section, has_marker_bracket in R.
  unfold text_without_markers in R. rewrite (sub_layout _ Hok) in R.
  now destruct (visible_no_bracket _ Hok).
Qed.

Lemma split_for_polly_no_marker_witness :
  Forall (fun segment => re_search section_pattern segment = false)
         (split_for_polly
            (render_layout
               [Between [Mark (lit "Intro")];
                Spoken [Mark (lit "Part 1"); Words (lit "a")];
                Between [Words [LF]];
                Spoken [Words (lit "b"); Mark (lit "Part 2"); Words (lit "c")]])
            3000).
Proof.
  apply (split_for_polly_no_marker
           [Between [Mark (lit "Intro")];
            Spoken [Mark (lit "Part 1"); Words (lit "a")];
            Between [Words [LF]];
            Spoken [Words (lit "b"); Mark (lit "Part 2"); Words (lit "c")]]
           3000).
  reflexivity.
Defined.

(** Two segments of balanced blocks: both are well-formed documents. *)
Example long_script_segments :
  split_for_polly long_script 3000 = [long_segment 124; long_segment 76]
  /\ forallb speak_document (split_for_polly long_script 3000) = true.
Proof. split; vm_compute; reflexivity. Qed.

(** The blocks of that script and its empty rest are balanced markup. *)
Example long_script_balanced :
  balanced (lit "<prosody>hello" ++ lit "</prosody>") /\ balanced [].
Proof. split; vm_compute; reflexivity. Qed.
